(** * Rehearsal splitter: a shallow embedding of [splitter.go]

    The program splits one long recording into songs.  The parts embedded
    here are the pure ones: the layered configuration merge ([loadConfig]),
    the derivation of song segments from detected silences
    ([calculateNonSilentSegments]), the "no silence" policy of [main], the
    title sanitizer ([sanitizeFilename]) and the rename loop of
    [renameFilesFromSetlist].

    Go's [float64] is IEEE 754 binary64, which is exactly Rocq's primitive
    [float]; arithmetic and comparisons are the kernel's.  Go strings are
    byte strings, modelled by [string].  A slice is a [list], indexed with
    stdpp's lookup; an index out of range (a panic in Go) is [None]. *)

From Stdlib Require Import Floats ZArith Lia.
From Stdlib Require Import Ascii String DecimalString.
From stdpp Require Import gmap strings list sorting.

Set Warnings "-inexact-float".

(** ** Go's comparison operators on [float64] *)

Definition geb (x y : float) : bool := PrimFloat.leb y x.
Definition gtb (x y : float) : bool := PrimFloat.ltb y x.
Definition neqb (x y : float) : bool := negb (PrimFloat.eqb x y).

(** ** Data model *)

(** [type Config struct] *)
Record Config := mkConfig {
  InputFile : string;
  MinSilenceDur : float;
  SilenceThreshold : string;
  MinSongLength : float;
  OutputPrefix : string;
  OutputDir : string;
  UploadToDrive : bool;
  RcloneRemote : string;
  DriveSubfolder : string;
  SetlistFile : string
}.

(** Go's zero value [Config{}]. *)
Definition zeroConfig : Config := mkConfig "" 0 "" 0 "" "" false "" "" "".

(** Field assignments [cfg.F = v]. *)
Definition set_InputFile (v : string) (c : Config) : Config :=
  mkConfig v (MinSilenceDur c) (SilenceThreshold c) (MinSongLength c)
    (OutputPrefix c) (OutputDir c) (UploadToDrive c) (RcloneRemote c)
    (DriveSubfolder c) (SetlistFile c).
Definition set_MinSilenceDur (v : float) (c : Config) : Config :=
  mkConfig (InputFile c) v (SilenceThreshold c) (MinSongLength c)
    (OutputPrefix c) (OutputDir c) (UploadToDrive c) (RcloneRemote c)
    (DriveSubfolder c) (SetlistFile c).
Definition set_SilenceThreshold (v : string) (c : Config) : Config :=
  mkConfig (InputFile c) (MinSilenceDur c) v (MinSongLength c)
    (OutputPrefix c) (OutputDir c) (UploadToDrive c) (RcloneRemote c)
    (DriveSubfolder c) (SetlistFile c).
Definition set_MinSongLength (v : float) (c : Config) : Config :=
  mkConfig (InputFile c) (MinSilenceDur c) (SilenceThreshold c) v
    (OutputPrefix c) (OutputDir c) (UploadToDrive c) (RcloneRemote c)
    (DriveSubfolder c) (SetlistFile c).
Definition set_OutputPrefix (v : string) (c : Config) : Config :=
  mkConfig (InputFile c) (MinSilenceDur c) (SilenceThreshold c) (MinSongLength c)
    v (OutputDir c) (UploadToDrive c) (RcloneRemote c)
    (DriveSubfolder c) (SetlistFile c).
Definition set_OutputDir (v : string) (c : Config) : Config :=
  mkConfig (InputFile c) (MinSilenceDur c) (SilenceThreshold c) (MinSongLength c)
    (OutputPrefix c) v (UploadToDrive c) (RcloneRemote c)
    (DriveSubfolder c) (SetlistFile c).
Definition set_UploadToDrive (v : bool) (c : Config) : Config :=
  mkConfig (InputFile c) (MinSilenceDur c) (SilenceThreshold c) (MinSongLength c)
    (OutputPrefix c) (OutputDir c) v (RcloneRemote c)
    (DriveSubfolder c) (SetlistFile c).
Definition set_RcloneRemote (v : string) (c : Config) : Config :=
  mkConfig (InputFile c) (MinSilenceDur c) (SilenceThreshold c) (MinSongLength c)
    (OutputPrefix c) (OutputDir c) (UploadToDrive c) v
    (DriveSubfolder c) (SetlistFile c).
Definition set_DriveSubfolder (v : string) (c : Config) : Config :=
  mkConfig (InputFile c) (MinSilenceDur c) (SilenceThreshold c) (MinSongLength c)
    (OutputPrefix c) (OutputDir c) (UploadToDrive c) (RcloneRemote c)
    v (SetlistFile c).
Definition set_SetlistFile (v : string) (c : Config) : Config :=
  mkConfig (InputFile c) (MinSilenceDur c) (SilenceThreshold c) (MinSongLength c)
    (OutputPrefix c) (OutputDir c) (UploadToDrive c) (RcloneRemote c)
    (DriveSubfolder c) v.

(** [type segment struct { start, end float64 }]; [end] is a keyword here. *)
Record segment := mkSegment {
  start : float;
  end_ : float
}.

(** [var defaultConfig] *)
Definition defaultConfig : Config := {|
  InputFile := "practice_session.mp4";
  MinSilenceDur := 2.0%float;
  SilenceThreshold := "-12dB";
  MinSongLength := 200.0%float;
  OutputPrefix := "Song";
  OutputDir := "output";
  UploadToDrive := false;
  RcloneRemote := "gdrive:";
  DriveSubfolder := "SplitSongs";
  SetlistFile := ""
|}.

(** ** Configuration loading *)

(** [var ( configFilePath string; cliInput string; ... )]: the variables the
    flag package fills when it parses the command line. *)
Record cliFlags := mkCliFlags {
  configFilePath : string;
  cliInput : string;
  cliDuration : float;
  cliThreshold : string;
  cliMinSongLength : float;
  cliPrefix : string;
  cliOutput : string;
  cliUpload : bool;
  cliRemote : string;
  cliSubfolder : string;
  cliSetlistFile : string
}.

(** The JSON object of the config file as [json.Unmarshal] reads it into a
    [Config]: each recognised key is absent ([None]) or present with a
    value. *)
Record configJSON := mkConfigJSON {
  input_file : option string;
  min_silence_duration : option float;
  silence_threshold : option string;
  min_song_length : option float;
  output_prefix : option string;
  output_dir : option string;
  upload_to_drive : option bool;
  rclone_remote : option string;
  drive_subfolder : option string;
  setlist_file : option string
}.

(** [json.Unmarshal(data, &fileConfig)] on [var fileConfig Config]: a key
    that is present overwrites the field's zero value, an absent key leaves
    it. *)
Definition unmarshalConfig (j : configJSON) : Config := {|
  InputFile := default "" (input_file j);
  MinSilenceDur := default 0%float (min_silence_duration j);
  SilenceThreshold := default "" (silence_threshold j);
  MinSongLength := default 0%float (min_song_length j);
  OutputPrefix := default "" (output_prefix j);
  OutputDir := default "" (output_dir j);
  UploadToDrive := default false (upload_to_drive j);
  RcloneRemote := default "" (rclone_remote j);
  DriveSubfolder := default "" (drive_subfolder j);
  SetlistFile := default "" (setlist_file j)
|}.

(** What is found at [configFilePath]. *)
Inductive configFile :=
  | FileMissing
  | FileUnreadable
  | FileInvalid (partial : Config)
  | FileParsed (j : configJSON).

Inductive fileError := ErrNotExist | ErrRead | ErrJSON.

(** [func loadConfigFromFile(path string) (Config, error)] *)
Definition loadConfigFromFile (file : configFile) : Config * option fileError :=
  let fileConfig := zeroConfig in
  match file with
  | FileMissing => (fileConfig, Some ErrNotExist)
  | FileUnreadable => (fileConfig, Some ErrRead)
  | FileInvalid partial => (partial, Some ErrJSON)
  | FileParsed j => (unmarshalConfig j, None)
  end.

(** [userSetFlags := make(map[string]bool)] filled by [flag.Visit], which
    calls its argument on each flag that was set; [visited] lists their
    names. *)
Definition userSetFlagsOf (visited : list string) : gmap string bool :=
  foldl (λ userSetFlags name, <[name := true]> userSetFlags) ∅ visited.

(** [userSetFlags[name]]: a missing key reads as [false]. *)
Definition flagSet (userSetFlags : gmap string bool) (name : string) : bool :=
  default false (userSetFlags !! name).

(** [if cond { cfg.F = v }] *)
Definition ifThen (cond : bool) (assign : Config → Config) (cfg : Config) : Config :=
  if cond then assign cfg else cfg.

(** [func loadConfig() (Config, error)].  The error is always [nil]; the
    warning printed for an unparsable file is not modelled. *)
Definition loadConfig (file : configFile) (cli : cliFlags)
    (visited : list string) : Config :=
  let cfg := defaultConfig in
  let '(fileConfig, err) := loadConfigFromFile file in
  let cfg :=
    match err with
    | None =>
        let cfg := ifThen (bool_decide (InputFile fileConfig ≠ ""))
                    (set_InputFile (InputFile fileConfig)) cfg in
        let cfg := ifThen (neqb (MinSilenceDur fileConfig) 0.0)
                    (set_MinSilenceDur (MinSilenceDur fileConfig)) cfg in
        let cfg := ifThen (bool_decide (SilenceThreshold fileConfig ≠ ""))
                    (set_SilenceThreshold (SilenceThreshold fileConfig)) cfg in
        let cfg := ifThen (neqb (MinSongLength fileConfig) 0.0)
                    (set_MinSongLength (MinSongLength fileConfig)) cfg in
        let cfg := ifThen (bool_decide (OutputPrefix fileConfig ≠ ""))
                    (set_OutputPrefix (OutputPrefix fileConfig)) cfg in
        let cfg := ifThen (bool_decide (OutputDir fileConfig ≠ ""))
                    (set_OutputDir (OutputDir fileConfig)) cfg in
        let cfg := ifThen (UploadToDrive fileConfig)
                    (set_UploadToDrive (UploadToDrive fileConfig)) cfg in
        let cfg := ifThen (bool_decide (RcloneRemote fileConfig ≠ ""))
                    (set_RcloneRemote (RcloneRemote fileConfig)) cfg in
        let cfg := ifThen (bool_decide (DriveSubfolder fileConfig ≠ ""))
                    (set_DriveSubfolder (DriveSubfolder fileConfig)) cfg in
        let cfg := ifThen (bool_decide (SetlistFile fileConfig ≠ ""))
                    (set_SetlistFile (SetlistFile fileConfig)) cfg in
        cfg
    | Some _ => cfg
    end in
  let userSetFlags := userSetFlagsOf visited in
  let cfg := ifThen (flagSet userSetFlags "input")
                    (set_InputFile (cliInput cli)) cfg in
  let cfg := ifThen (flagSet userSetFlags "duration")
                    (set_MinSilenceDur (cliDuration cli)) cfg in
  let cfg := ifThen (flagSet userSetFlags "threshold")
                    (set_SilenceThreshold (cliThreshold cli)) cfg in
  let cfg := ifThen (flagSet userSetFlags "minsonglength")
                    (set_MinSongLength (cliMinSongLength cli)) cfg in
  let cfg := ifThen (flagSet userSetFlags "prefix")
                    (set_OutputPrefix (cliPrefix cli)) cfg in
  let cfg := ifThen (flagSet userSetFlags "output")
                    (set_OutputDir (cliOutput cli)) cfg in
  let cfg := ifThen (flagSet userSetFlags "upload")
                    (set_UploadToDrive (cliUpload cli)) cfg in
  let cfg := ifThen (flagSet userSetFlags "remote")
                    (set_RcloneRemote (cliRemote cli)) cfg in
  let cfg := ifThen (flagSet userSetFlags "subfolder")
                    (set_DriveSubfolder (cliSubfolder cli)) cfg in
  let cfg := ifThen (flagSet userSetFlags "setlist")
                    (set_SetlistFile (cliSetlistFile cli)) cfg in
  cfg.

(** The flag variables when no flag is given: [defineFlags] registers each
    with its default. *)
Definition defaultFlags : cliFlags := {|
  configFilePath := "config.json";
  cliInput := InputFile defaultConfig;
  cliDuration := MinSilenceDur defaultConfig;
  cliThreshold := SilenceThreshold defaultConfig;
  cliMinSongLength := MinSongLength defaultConfig;
  cliPrefix := OutputPrefix defaultConfig;
  cliOutput := OutputDir defaultConfig;
  cliUpload := UploadToDrive defaultConfig;
  cliRemote := RcloneRemote defaultConfig;
  cliSubfolder := DriveSubfolder defaultConfig;
  cliSetlistFile := SetlistFile defaultConfig
|}.

(** The empty JSON object [{}]. *)
Definition emptyJSON : configJSON :=
  mkConfigJSON None None None None None None None None None None.

(** A key of the config file that is absent, or present with the zero value
    of its type. *)
Definition zeroOrAbsent {A} (isZero : A → bool) (o : option A) : bool :=
  from_option isZero true o.

Definition emptyString (v : string) : bool := bool_decide (v = "").
Definition zeroFloat (v : float) : bool := PrimFloat.eqb v 0.

(** Two values of a key that are the same, or both absent-or-zero. *)
Definition sameOrZero {A} (isZero : A → bool) (o1 o2 : option A) : Prop :=
  o1 = o2 ∨ (zeroOrAbsent isZero o1 = true ∧ zeroOrAbsent isZero o2 = true).

(** Two config files that differ only in writing a zero value where the
    other has no key (or another zero value). *)
Definition jsonEquiv (j1 j2 : configJSON) : Prop :=
  sameOrZero emptyString (input_file j1) (input_file j2)
  ∧ sameOrZero zeroFloat (min_silence_duration j1) (min_silence_duration j2)
  ∧ sameOrZero emptyString (silence_threshold j1) (silence_threshold j2)
  ∧ sameOrZero zeroFloat (min_song_length j1) (min_song_length j2)
  ∧ sameOrZero emptyString (output_prefix j1) (output_prefix j2)
  ∧ sameOrZero emptyString (output_dir j1) (output_dir j2)
  ∧ sameOrZero negb (upload_to_drive j1) (upload_to_drive j2)
  ∧ sameOrZero emptyString (rclone_remote j1) (rclone_remote j2)
  ∧ sameOrZero emptyString (drive_subfolder j1) (drive_subfolder j2)
  ∧ sameOrZero emptyString (setlist_file j1) (setlist_file j2).

(** ** The segment deriver *)

(** The loop [for i := 0; i < len(silences)-1; i++] of
    [calculateNonSilentSegments]: [n] iterations are left, [i] is the loop
    index and [songSegments] the slice built so far. *)
Fixpoint middleLoop (n i : nat) (silences : list segment) (cfg : Config)
    (songSegments : list segment) : option (list segment) :=
  match n with
  | O => Some songSegments
  | S n' =>
      si ← silences !! i;
      sj ← silences !! (i + 1);
      let st := end_ si in
      let en := start sj in
      let songSegments :=
        if geb (en - st) (MinSongLength cfg)
        then songSegments ++ [mkSegment st en]
        else songSegments in
      middleLoop n' (i + 1) silences cfg songSegments
  end.

(** [func calculateNonSilentSegments(silences []segment, totalDuration float64, cfg Config) []segment] *)
Definition calculateNonSilentSegments (silences : list segment)
    (totalDuration : float) (cfg : Config) : option (list segment) :=
  let songSegments : list segment := [] in
  let lastEndTime := 0.0%float in
  if decide (length silences = 0) then Some songSegments
  else
    let st := lastEndTime in
    s0 ← silences !! 0;
    let en := start s0 in
    let songSegments :=
      if geb (en - st) (MinSongLength cfg)
      then songSegments ++ [mkSegment st en]
      else songSegments in
    songSegments ← middleLoop (length silences - 1) 0 silences cfg songSegments;
    sl ← silences !! (length silences - 1);
    let lastSilenceEnd := end_ sl in
    let st := lastSilenceEnd in
    let en := totalDuration in
    let songSegments :=
      if gtb (en - st) 0.1 && geb (en - st) (MinSongLength cfg)
      then songSegments ++ [mkSegment st en]
      else songSegments in
    Some songSegments.

(** Steps 8 and 9 of [main]: the song segments handed to the exporter. *)
Definition mainSongSegments (silences : list segment) (totalDuration : float)
    (cfg : Config) : option (list segment) :=
  songSegments ← calculateNonSilentSegments silences totalDuration cfg;
  if decide (length silences = 0) then
    if geb totalDuration (MinSongLength cfg)
    then Some [mkSegment 0 totalDuration]
    else Some songSegments
  else Some songSegments.

(** ** Title sanitizing and file names *)

Definition byte (c : ascii) : nat := nat_of_ascii c.

Definition isDigit (c : ascii) : bool := (48 <=? byte c) && (byte c <=? 57).
Definition isLetter (c : ascii) : bool :=
  (65 <=? byte c) && (byte c <=? 90) || (97 <=? byte c) && (byte c <=? 122).
Definition isUnderscore (c : ascii) : bool := byte c =? 95.
Definition isHyphen (c : ascii) : bool := byte c =? 45.
Definition isSpaceChar (c : ascii) : bool := byte c =? 32.

(** The class [\w] of Go's regexp syntax: [0-9A-Za-z_]. *)
Definition isWordChar (c : ascii) : bool :=
  isDigit c || isLetter c || isUnderscore c.

(** The class [\s] of Go's regexp syntax: tab, newline, form feed, carriage
    return, space. *)
Definition isRegexpSpace (c : ascii) : bool :=
  (byte c =? 9) || (byte c =? 10) || (byte c =? 12) || (byte c =? 13)
  || (byte c =? 32).

(** A byte matched by [[^\w\s\-]].  The classes are ASCII only: a byte from
    128 on belongs to a rune outside ASCII, or is invalid UTF-8 and read as
    U+FFFD; the expression matches either. *)
Definition invalidChar (c : ascii) : bool :=
  negb (isWordChar c || isRegexpSpace c || isHyphen c).

(** [invalidChars.ReplaceAllString(name, "")] *)
Fixpoint removeInvalidChars (name : string) : string :=
  match name with
  | EmptyString => EmptyString
  | String c rest =>
      if invalidChar c then removeInvalidChars rest
      else String c (removeInvalidChars rest)
  end.

(** [strings.ReplaceAll(name, " ", "_")] *)
Fixpoint replaceSpaces (name : string) : string :=
  match name with
  | EmptyString => EmptyString
  | String c rest =>
      String (if isSpaceChar c then "_"%char else c) (replaceSpaces rest)
  end.

(** The runes for which [unicode.IsSpace] holds, by their UTF-8 encodings:
    U+0009 to U+000D and U+0020; U+0085 and U+00A0; U+1680, U+2000 to U+200A,
    U+2028, U+2029, U+202F, U+205F and U+3000. *)
Definition asciiSpace (a : ascii) : bool :=
  (9 <=? byte a) && (byte a <=? 13) || (byte a =? 32).

Definition space2 (a b : ascii) : bool :=
  (byte a =? 194) && ((byte b =? 133) || (byte b =? 160)).

Definition space3 (a b c : ascii) : bool :=
  (byte a =? 225) && (byte b =? 154) && (byte c =? 128)
  || (byte a =? 226) && (byte b =? 128)
     && ((128 <=? byte c) && (byte c <=? 138)
         || (byte c =? 168) || (byte c =? 169) || (byte c =? 175))
  || (byte a =? 226) && (byte b =? 129) && (byte c =? 159)
  || (byte a =? 227) && (byte b =? 128) && (byte c =? 128).

Definition isSpaceEncoding (s : string) : bool :=
  match s with
  | String a EmptyString => asciiSpace a
  | String a (String b EmptyString) => space2 a b
  | String a (String b (String c EmptyString)) => space3 a b c
  | _ => false
  end.

(** Leading white space: drop space runes while the string starts with one. *)
Fixpoint trimLeft (s : string) : string :=
  match s with
  | EmptyString => EmptyString
  | String a r1 =>
      if asciiSpace a then trimLeft r1
      else
        match r1 with
        | EmptyString => s
        | String b r2 =>
            if space2 a b then trimLeft r2
            else
              match r2 with
              | EmptyString => s
              | String c r3 => if space3 a b c then trimLeft r3 else s
              end
        end
  end.

(** Trailing white space: what is left of [s] once the space runes it ends
    with are dropped.  After the rest is trimmed, the first byte goes too
    when, with what is left, it is exactly one space rune. *)
Fixpoint trimRight (s : string) : string :=
  match s with
  | EmptyString => EmptyString
  | String a r =>
      let r' := trimRight r in
      if isSpaceEncoding (String a r') then EmptyString else String a r'
  end.

(** [strings.TrimSpace]: all leading and trailing white space removed, as
    defined by Unicode. *)
Definition TrimSpace (s : string) : string := trimRight (trimLeft s).

(** [func sanitizeFilename(name string) string] *)
Definition sanitizeFilename (name : string) : string :=
  let name := TrimSpace name in
  let name := removeInvalidChars name in
  let name := replaceSpaces name in
  if decide (name = "") then "Untitled_Song" else name.

(** [fmt.Sprintf("%02d", n)] for [n >= 0]: decimal, padded with zeros to two
    digits. *)
Definition Sprintf_02d (n : nat) : string :=
  let digits := NilEmpty.string_of_uint (Nat.to_uint n) in
  if String.length digits <? 2 then "0" +:+ digits else digits.

(** The loop of [filepath.Ext], which runs from the last byte backwards and
    stops at a dot or a separator.  [extScan s] is [None] when the loop runs
    through all of [s] without stopping, and else what it returns. *)
Fixpoint extScan (s : string) : option string :=
  match s with
  | EmptyString => None
  | String c rest =>
      match extScan rest with
      | Some ext => Some ext
      | None =>
          if (byte c =? 46) then Some s
          else if (byte c =? 47) then Some EmptyString
          else None
      end
  end.

(** [filepath.Ext(path)]: the suffix beginning at the final dot in the final
    element of [path]; empty if there is no dot. *)
Definition filepath_Ext (path : string) : string := default "" (extScan path).

(** [fmt.Sprintf("%02d - %s%s", i+1, newSongName, ext)] in the rename loop. *)
Definition newFileNameOf (i : nat) (title oldFilePath : string) : string :=
  let ext := filepath_Ext oldFilePath in
  let newSongName := sanitizeFilename title in
  Sprintf_02d (i + 1) +:+ " - " +:+ newSongName +:+ ext.

(** Every byte of [s] satisfies [P]. *)
Fixpoint allChars (P : ascii → bool) (s : string) : bool :=
  match s with
  | EmptyString => true
  | String c rest => P c && allChars P rest
  end.

(** A string made of space runes only. *)
Inductive spaces : string → Prop :=
  | spaces_nil : spaces ""
  | spaces_cons e ws :
      isSpaceEncoding e = true → spaces ws → spaces (e +:+ ws).


(** White space other than the space character, as [\s] has it: tab,
    newline, form feed, carriage return. *)
Definition isOtherSpace (c : ascii) : bool :=
  (byte c =? 9) || (byte c =? 10) || (byte c =? 12) || (byte c =? 13).

(** The bytes a sanitized title is made of: letters, digits, white space
    other than the space character, hyphen and underscore. *)
Definition outputChar (c : ascii) : bool :=
  isLetter c || isDigit c || isOtherSpace c || isHyphen c || isUnderscore c.


(** ** Candidates, as the specification names them *)

(** The length of an interval, computed as the code does: [end - start]. *)
Definition segLength (c : segment) : float := (end_ c - start c)%float.

(** The filter of the leading and middle candidates. *)
Definition longEnough (cfg : Config) (c : segment) : Prop :=
  geb (segLength c) (MinSongLength cfg) = true.

#[global] Instance longEnough_dec cfg c : Decision (longEnough cfg c).
Proof. unfold longEnough. apply _. Defined.

(** The filter of the trailing candidate. *)
Definition trailingKept (cfg : Config) (c : segment) : Prop :=
  gtb (segLength c) 0.1 && geb (segLength c) (MinSongLength cfg) = true.

#[global] Instance trailingKept_dec cfg c : Decision (trailingKept cfg c).
Proof. unfold trailingKept. apply _. Defined.

Definition leadingCandidate (s0 : segment) : segment :=
  mkSegment 0 (start s0).

(** One candidate per adjacent pair [i], [i+1] of silences, in order. *)
Definition middleCandidates (silences : list segment) : list segment :=
  zip_with (λ a b, mkSegment (end_ a) (start b)) silences (tail silences).

Definition trailingCandidate (sl : segment) (totalDuration : float) : segment :=
  mkSegment (end_ sl) totalDuration.

Definition lastSilence (s0 : segment) (rest : list segment) : segment :=
  default s0 (last rest).

(** All candidates in order: the gaps left by the silences between [lo] and
    [hi]. *)
Fixpoint gaps (lo : float) (silences : list segment) (hi : float) : list segment :=
  match silences with
  | [] => [mkSegment lo hi]
  | s :: tl => mkSegment lo (start s) :: gaps (end_ s) tl hi
  end.

(** ** Well-formed silence lists and ordered outputs *)

(** [0 <= start <= end] *)
Definition orderedSilenceb (s : segment) : bool :=
  PrimFloat.leb 0 (start s) && PrimFloat.leb (start s) (end_ s).

(** [0 <= start <= end <= totalDuration] *)
Definition withinb (totalDuration : float) (c : segment) : bool :=
  PrimFloat.leb 0 (start c) && PrimFloat.leb (start c) (end_ c)
  && PrimFloat.leb (end_ c) totalDuration.

(** Each silence ends before the next one starts. *)
Fixpoint nonOverlappingb (silences : list segment) : bool :=
  match silences with
  | a :: ((b :: _) as tl) => PrimFloat.leb (end_ a) (start b) && nonOverlappingb tl
  | _ => true
  end.

(** Two half-open intervals share no point. *)
Definition disjointb (a b : segment) : bool :=
  PrimFloat.leb (end_ a) (start b) || PrimFloat.leb (end_ b) (start a).

(** The instant [x] lies in the half-open interval [[start, end)]. *)
Definition inSegment (x : float) (c : segment) : bool :=
  PrimFloat.leb (start c) x && PrimFloat.ltb x (end_ c).



(** The invariant behind a well-formed list: from [lo] on, every silence
    starts after the previous end and ends after its own start. *)
Fixpoint chain (lo : float) (silences : list segment) : Prop :=
  match silences with
  | [] => True
  | s :: tl =>
      PrimFloat.leb lo (start s) = true ∧
      PrimFloat.leb (start s) (end_ s) = true ∧
      chain (end_ s) tl
  end.

(** ** The cases of the repository's tests, run on the embedding *)

Section RepositoryTests.

(** [baseTestCfg] of [TestCalculateNonSilentSegments] *)
Let baseTestCfg : Config := set_MinSongLength 10 zeroConfig.

Example calculate_NoSilence :
  calculateNonSilentSegments [] 300 baseTestCfg = Some [].
Proof. reflexivity. Qed.

Example calculate_SongAtStart :
  calculateNonSilentSegments [mkSegment 180 190] 300 baseTestCfg
  = Some [mkSegment 0 180; mkSegment 190 300].
Proof. reflexivity. Qed.

Example calculate_SongInMiddle :
  calculateNonSilentSegments [mkSegment 0 10; mkSegment 200 210] 300 baseTestCfg
  = Some [mkSegment 10 200; mkSegment 210 300].
Proof. reflexivity. Qed.

Example calculate_MultipleSongs :
  calculateNonSilentSegments [mkSegment 100 110; mkSegment 200 210] 300
    baseTestCfg
  = Some [mkSegment 0 100; mkSegment 110 200; mkSegment 210 300].
Proof. reflexivity. Qed.

Example calculate_FilterShortSongs :
  calculateNonSilentSegments [mkSegment 40 50; mkSegment 100 110] 120
    (set_MinSongLength 50 zeroConfig)
  = Some [mkSegment 50 100].
Proof. reflexivity. Qed.

(** [TestConfigLoading]: "Defaults", "FileOverridesDefaults" and
    "CliOverridesFile". *)
Example loadConfig_Defaults :
  loadConfig FileMissing defaultFlags ["config"] = defaultConfig.
Proof. reflexivity. Qed.

Example loadConfig_FileOverridesDefaults :
  loadConfig
    (FileParsed (mkConfigJSON (Some "file_video.mp4") (Some 0%float)
                   (Some "-20dB") (Some 60%float) (Some "") (Some "")
                   (Some true) (Some "") (Some "FileFolder") (Some "")))
    defaultFlags ["config"]
  = mkConfig "file_video.mp4" 2 "-20dB" 60 "Song" "output" true "gdrive:"
      "FileFolder" "".
Proof. reflexivity. Qed.

Example loadConfig_CliOverridesFile :
  loadConfig
    (FileParsed (mkConfigJSON (Some "file_video.mp4") (Some 0%float)
                   (Some "") (Some 60%float) (Some "") (Some "")
                   (Some false) (Some "") (Some "") (Some "")))
    (mkCliFlags "config.json" "cli_video.mp4" 2 "-12dB" 200 "Song" "output"
       true "gdrive:" "CLIFolder" "")
    ["config"; "input"; "subfolder"; "upload"]
  = mkConfig "cli_video.mp4" 2 "-12dB" 60 "Song" "output" true "gdrive:"
      "CLIFolder" "".
Proof. reflexivity. Qed.

(** The format of the README: [01 - Song_Name.mp4]. *)
Example newFileName_Song_Name :
  newFileNameOf 0 "Song Name" "output/Song_01.mp4" = "01 - Song_Name.mp4".
Proof. reflexivity. Qed.

Example filepath_Ext_examples :
  filepath_Ext "output/Song_01.mp4" = ".mp4"
  ∧ filepath_Ext "out.put/Song_01" = ""
  ∧ filepath_Ext "archive.tar.gz" = ".gz".
Proof. repeat split. Qed.

End RepositoryTests.

(** * Properties *)

(** ** The order of binary64 numbers

    The comparisons of primitive floats are specified by [SFcompare] on
    [spec_float]; the facts below are the ones the deriver's filters rely
    on.  None of them holds for NaN, which every comparison rejects. *)

Module FloatOrder.

Lemma cont_cases m1 m2 c :
  PosDef.Pos.compare_cont Eq m1 m2 = c →
  match c with
  | Eq => m1 = m2
  | Lt => (m1 < m2)%positive
  | Gt => (m2 < m1)%positive
  end.
Proof.
  intros <-. change (PosDef.Pos.compare_cont Eq m1 m2) with (Pos.compare m1 m2).
  destruct (Pos.compare_spec m1 m2); assumption.
Qed.

Lemma zcmp_cases e1 e2 c :
  Z.compare e1 e2 = c →
  match c with
  | Eq => e1 = e2
  | Lt => (e1 < e2)%Z
  | Gt => (e2 < e1)%Z
  end.
Proof. intros <-. destruct (Z.compare_spec e1 e2); assumption. Qed.

Ltac cmp_cases :=
  repeat match goal with
  | H : context [Z.compare ?a ?b] |- _ =>
      let E := fresh "E" in destruct (Z.compare a b) eqn:E; apply zcmp_cases in E
  | |- context [Z.compare ?a ?b] =>
      let E := fresh "E" in destruct (Z.compare a b) eqn:E; apply zcmp_cases in E
  | H : context [PosDef.Pos.compare_cont Eq ?a ?b] |- _ =>
      let E := fresh "E" in
      destruct (PosDef.Pos.compare_cont Eq a b) eqn:E; apply cont_cases in E
  | |- context [PosDef.Pos.compare_cont Eq ?a ?b] =>
      let E := fresh "E" in
      destruct (PosDef.Pos.compare_cont Eq a b) eqn:E; apply cont_cases in E
  end.

(** Case analysis over three specification floats, closing every case by
    computation or linear arithmetic on exponents and mantissas. *)
Ltac sf_order x y z :=
  unfold SFleb, SFltb, SFeqb;
  destruct x as [[]|[]| |[] ? ?], y as [[]|[]| |[] ? ?], z as [[]|[]| |[] ? ?];
  simpl; try reflexivity; try discriminate;
  intros; cmp_cases; try reflexivity; try discriminate; lia.

Ltac sf_order2 x y :=
  unfold SFleb, SFltb, SFeqb;
  destruct x as [[]|[]| |[] ? ?], y as [[]|[]| |[] ? ?];
  simpl; try reflexivity; try discriminate;
  intros; cmp_cases; try reflexivity; try discriminate; lia.

Lemma SFleb_trans x y z : SFleb x y = true → SFleb y z = true → SFleb x z = true.
Proof. sf_order x y z. Qed.

Lemma SFltb_leb_trans x y z : SFltb x y = true → SFleb y z = true → SFltb x z = true.
Proof. sf_order x y z. Qed.

Lemma SFleb_ltb_trans x y z : SFleb x y = true → SFltb y z = true → SFltb x z = true.
Proof. sf_order x y z. Qed.

Lemma SFleb_refl_l x y : SFleb x y = true → SFleb x x = true.
Proof. sf_order2 x y. Qed.

Lemma SFleb_refl_r x y : SFleb x y = true → SFleb y y = true.
Proof. sf_order2 x y. Qed.

Lemma SFltb_not_leb x y : SFltb x y = true → SFleb y x = false.
Proof. sf_order2 x y. Qed.

Lemma SFeqb_leb x y : SFeqb x y = true → SFleb x y = true ∧ SFleb y x = true.
Proof. intros H. split; revert H; sf_order2 x y. Qed.

Lemma leb_trans x y z :
  PrimFloat.leb x y = true → PrimFloat.leb y z = true → PrimFloat.leb x z = true.
Proof. rewrite !FloatAxioms.leb_spec. apply SFleb_trans. Qed.

Lemma ltb_leb_trans x y z :
  PrimFloat.ltb x y = true → PrimFloat.leb y z = true → PrimFloat.ltb x z = true.
Proof. rewrite !FloatAxioms.leb_spec, !FloatAxioms.ltb_spec. apply SFltb_leb_trans. Qed.

Lemma leb_ltb_trans x y z :
  PrimFloat.leb x y = true → PrimFloat.ltb y z = true → PrimFloat.ltb x z = true.
Proof. rewrite !FloatAxioms.leb_spec, !FloatAxioms.ltb_spec. apply SFleb_ltb_trans. Qed.

Lemma leb_refl_l x y : PrimFloat.leb x y = true → PrimFloat.leb x x = true.
Proof. rewrite !FloatAxioms.leb_spec. apply SFleb_refl_l. Qed.

Lemma leb_refl_r x y : PrimFloat.leb x y = true → PrimFloat.leb y y = true.
Proof. rewrite !FloatAxioms.leb_spec. apply SFleb_refl_r. Qed.

Lemma ltb_not_leb x y : PrimFloat.ltb x y = true → PrimFloat.leb y x = false.
Proof. rewrite !FloatAxioms.leb_spec, !FloatAxioms.ltb_spec. apply SFltb_not_leb. Qed.

Lemma eqb_leb x y :
  PrimFloat.eqb x y = true → PrimFloat.leb x y = true ∧ PrimFloat.leb y x = true.
Proof. rewrite !FloatAxioms.leb_spec, !FloatAxioms.eqb_spec. apply SFeqb_leb. Qed.

(** [x == y] makes [y < x] false. *)
Lemma eqb_not_ltb x y : PrimFloat.eqb x y = true → PrimFloat.ltb y x = false.
Proof.
  intros [Hxy _]%eqb_leb.
  destruct (PrimFloat.ltb y x) eqn:E; [|done].
  apply ltb_not_leb in E. congruence.
Qed.

End FloatOrder.



(** ** The loop of [calculateNonSilentSegments] *)

Lemma middleCandidates_length silences :
  length (middleCandidates silences) = length silences - 1.
Proof.
  unfold middleCandidates. rewrite length_zip_with.
  destruct silences; [done|]. cbn [tail length]. lia.
Qed.

Lemma middleCandidates_lookup silences i a b :
  silences !! i = Some a → silences !! (i + 1) = Some b →
  middleCandidates silences !! i = Some (mkSegment (end_ a) (start b)).
Proof.
  intros Ha Hb. unfold middleCandidates.
  rewrite lookup_zip_with, Ha. simpl.
  rewrite lookup_tail. replace (S i) with (i + 1) by lia. by rewrite Hb.
Qed.

Lemma middleLoop_spec silences cfg n : ∀ i acc,
  i + n + 1 = length silences →
  middleLoop n i silences cfg acc =
    Some (acc ++ filter (longEnough cfg) (drop i (middleCandidates silences))).
Proof.
  induction n as [|n IH]; intros i acc Hlen; simpl.
  - rewrite drop_ge by (rewrite middleCandidates_length; lia).
    by rewrite filter_nil, app_nil_r.
  - destruct (lookup_lt_is_Some_2 silences i) as [a Ha]; [lia|].
    destruct (lookup_lt_is_Some_2 silences (i + 1)) as [b Hb]; [lia|].
    rewrite Ha, Hb. simpl.
    rewrite IH by lia.
    rewrite (drop_S _ _ _ (middleCandidates_lookup _ _ _ _ Ha Hb)).
    replace (S i) with (i + 1) by lia.
    destruct (geb (start b - end_ a) (MinSongLength cfg)) eqn:E.
    + rewrite filter_cons_True by exact E. by rewrite <- app_assoc.
    + rewrite filter_cons_False; [done|].
      unfold longEnough, segLength. simpl. by rewrite E.
Qed.

(** The whole function on a non-empty silence list: it never panics, and its
    result is the kept leading and middle candidates followed by the kept
    trailing candidate. *)
Lemma calculate_cons s0 rest totalDuration cfg :
  calculateNonSilentSegments (s0 :: rest) totalDuration cfg =
    Some (filter (longEnough cfg)
            (leadingCandidate s0 :: middleCandidates (s0 :: rest))
          ++ filter (trailingKept cfg)
               [trailingCandidate (lastSilence s0 rest) totalDuration]).
Proof.
  unfold calculateNonSilentSegments.
  rewrite decide_False by done. simpl.
  rewrite middleLoop_spec by (simpl; lia). simpl.
  rewrite Nat.sub_0_r.
  assert ((s0 :: rest) !! length rest = Some (lastSilence s0 rest)) as ->.
  { unfold lastSilence. destruct rest as [|r rest'] using rev_ind; [done|].
    rewrite last_snoc. simpl. rewrite length_app. simpl.
    replace (length rest' + 1) with (S (length rest')) by lia. simpl.
    by rewrite list_lookup_middle. }
  simpl. f_equal.
  destruct (geb (start s0 - 0) (MinSongLength cfg)) eqn:E1;
    [rewrite (filter_cons_True (longEnough cfg)) by exact E1
    |rewrite (filter_cons_False (longEnough cfg))
       by (unfold longEnough, segLength; simpl; by rewrite E1)];
    (destruct (gtb (totalDuration - end_ (lastSilence s0 rest)) 0.1
               && geb (totalDuration - end_ (lastSilence s0 rest)) (MinSongLength cfg)) eqn:E2;
     [rewrite (filter_cons_True (trailingKept cfg)) by exact E2
     |rewrite (filter_cons_False (trailingKept cfg))
        by (unfold trailingKept, segLength; simpl; by rewrite E2)]);
    rewrite filter_nil; simpl; by rewrite ?app_nil_r.
Qed.

(** ** The filters *)

Section Filters.
Import FloatOrder.
Variable cfg : Config.

(** A candidate whose length equals [MinSongLength] passes [>=]. *)
Lemma longEnough_exact c :
  PrimFloat.eqb (segLength c) (MinSongLength cfg) = true → longEnough cfg c.
Proof. intros H. unfold longEnough, geb. by apply eqb_leb in H as [_ ?]. Qed.

(** With [MinSongLength >= 0] a negative length fails [>=]. *)
Lemma longEnough_negative c :
  PrimFloat.ltb (segLength c) 0 = true →
  PrimFloat.leb 0 (MinSongLength cfg) = true →
  ¬ longEnough cfg c.
Proof.
  unfold longEnough, geb. intros Hneg Hmin Hkeep.
  pose proof (leb_trans _ _ _ Hmin Hkeep) as H0.
  apply ltb_not_leb in Hneg. congruence.
Qed.

(** With [MinSongLength > 0] a zero length fails [>=]. *)
Lemma longEnough_zero c :
  PrimFloat.eqb (segLength c) 0 = true →
  PrimFloat.ltb 0 (MinSongLength cfg) = true →
  ¬ longEnough cfg c.
Proof.
  unfold longEnough, geb. intros Hz Hmin Hkeep.
  apply eqb_leb in Hz as [Hz _].
  pose proof (leb_trans _ _ _ Hkeep Hz) as H0.
  apply ltb_not_leb in Hmin. congruence.
Qed.

Lemma trailingKept_iff c :
  trailingKept cfg c ↔
  gtb (segLength c) 0.1 = true ∧ geb (segLength c) (MinSongLength cfg) = true.
Proof. unfold trailingKept. by rewrite andb_true_iff. Qed.

(** A length equal to the epsilon fails the strict [>]. *)
Lemma trailingKept_epsilon c :
  PrimFloat.eqb (segLength c) 0.1 = true → ¬ trailingKept cfg c.
Proof.
  intros He [Hgt _]%trailingKept_iff. unfold gtb in Hgt.
  apply eqb_not_ltb in He. congruence.
Qed.

(** A length just above the epsilon passes when [MinSongLength] is zero. *)
Lemma trailingKept_above_epsilon c :
  PrimFloat.eqb (segLength c) 0.1000001 = true →
  PrimFloat.eqb (MinSongLength cfg) 0 = true →
  trailingKept cfg c.
Proof.
  intros Hc Hm. apply trailingKept_iff. unfold gtb, geb.
  apply eqb_leb in Hc as [_ Hc]. apply eqb_leb in Hm as [Hm _].
  split.
  - apply (ltb_leb_trans _ 0.1000001); [reflexivity | exact Hc].
  - apply (leb_trans _ 0); [exact Hm|].
    apply (leb_trans _ 0.1000001); [reflexivity | exact Hc].
Qed.

End Filters.

(** ** Claims about the filters of the deriver *)

Lemma last_cons_lastSilence s0 rest :
  last (s0 :: rest) = Some (lastSilence s0 rest).
Proof.
  unfold lastSilence. destruct rest as [|r rest'] using rev_ind; [done|].
  by rewrite app_comm_cons, !last_snoc.
Qed.

(** C1 (amended).  On a non-empty silence list the function returns (no
    panic), and the part of its result before the trailing segment is the
    list of candidates [0, silences[0].start) and
    [silences[i].end, silences[i+1].start), in order, filtered by
    [end - start >= MinSongLength].  A candidate of length exactly
    [MinSongLength] is kept.  A candidate of negative length is dropped when
    [MinSongLength >= 0], one of length zero when [MinSongLength > 0]. *)
Theorem C1_leading_and_middle_candidates s0 rest totalDuration cfg :
  let silences := s0 :: rest in
  let candidates := leadingCandidate s0 :: middleCandidates silences in
  calculateNonSilentSegments silences totalDuration cfg =
    Some (filter (longEnough cfg) candidates
          ++ filter (trailingKept cfg)
               [trailingCandidate (lastSilence s0 rest) totalDuration])
  ∧ candidates !! 0 = Some (mkSegment 0 (start s0))
  ∧ (∀ i a b, silences !! i = Some a → silences !! (i + 1) = Some b →
       candidates !! (S i) = Some (mkSegment (end_ a) (start b)))
  ∧ length candidates = length silences
  ∧ (∀ c, c ∈ filter (longEnough cfg) candidates ↔
          c ∈ candidates ∧ geb (end_ c - start c) (MinSongLength cfg) = true)
  ∧ (∀ c, PrimFloat.eqb (segLength c) (MinSongLength cfg) = true →
          longEnough cfg c)
  ∧ (∀ c, PrimFloat.ltb (segLength c) 0 = true →
          PrimFloat.leb 0 (MinSongLength cfg) = true → ¬ longEnough cfg c)
  ∧ (∀ c, PrimFloat.eqb (segLength c) 0 = true →
          PrimFloat.ltb 0 (MinSongLength cfg) = true → ¬ longEnough cfg c).
Proof.
  intros silences candidates.
  split; [apply calculate_cons|].
  split; [done|].
  split.
  { intros i a b Ha Hb. subst candidates. simpl.
    by apply middleCandidates_lookup. }
  split.
  { subst candidates silences. cbn [length].
    rewrite middleCandidates_length. cbn [length]. lia. }
  split.
  { intros c. rewrite list_elem_of_filter. unfold longEnough, segLength.
    tauto. }
  split; [apply longEnough_exact|].
  split; [apply longEnough_negative | apply longEnough_zero].
Qed.

Lemma C1_witness :
  calculateNonSilentSegments [mkSegment 40 50; mkSegment 100 110] 120
    (set_MinSongLength 50 zeroConfig) = Some [mkSegment 50 100]
  ∧ longEnough (set_MinSongLength 50 zeroConfig) (mkSegment 50 100)
  ∧ ¬ longEnough (set_MinSongLength 50 zeroConfig) (mkSegment 110 100)
  ∧ ¬ longEnough (set_MinSongLength 50 zeroConfig) (mkSegment 110 110).
Proof.
  pose proof (C1_leading_and_middle_candidates (mkSegment 40 50)
                [mkSegment 100 110] 120 (set_MinSongLength 50 zeroConfig))
    as (Hout & _ & _ & _ & _ & Hexact & Hneg & Hzero).
  split; [exact Hout|]. split; [|split].
  - apply Hexact. reflexivity.
  - apply Hneg; reflexivity.
  - apply Hzero; reflexivity.
Defined.

(** C1 as stated fails: with [MinSongLength = 0] the zero-length candidate
    between two touching silences passes the filter and is returned. *)
Lemma C1_zero_length_candidate_retained :
  ¬ (∀ c out,
       calculateNonSilentSegments [mkSegment 10 20; mkSegment 20 30] 100
         (set_MinSongLength 0 defaultConfig) = Some out →
       c ∈ middleCandidates [mkSegment 10 20; mkSegment 20 30] →
       PrimFloat.leb (segLength c) 0 = true →
       c ∉ out).
Proof.
  intros H.
  apply (H (mkSegment 20 20)
           [mkSegment 0 10; mkSegment 20 20; mkSegment 30 100]).
  - reflexivity.
  - apply list_elem_of_here.
  - reflexivity.
  - apply list_elem_of_further, list_elem_of_here.
Qed.

(** C2.  The result is the kept leading and middle candidates followed by
    the trailing candidate [silences.last.end, totalDuration), and the
    trailing candidate is appended exactly when its length is [> 0.1] and
    [>= MinSongLength], nothing being appended otherwise; a length equal to
    [0.1] is rejected, a length of [0.1000001] with [MinSongLength = 0] is
    accepted; a leading or middle candidate is kept exactly when its length
    is [>= MinSongLength], whatever its relation to [0.1]. *)
Theorem C2_trailing_candidate s0 rest totalDuration cfg :
  let silences := s0 :: rest in
  let trailing := trailingCandidate (lastSilence s0 rest) totalDuration in
  let kept :=
    filter (longEnough cfg) (leadingCandidate s0 :: middleCandidates silences) in
  let guard :=
    gtb (totalDuration - end_ (lastSilence s0 rest)) 0.1 = true ∧
    geb (totalDuration - end_ (lastSilence s0 rest)) (MinSongLength cfg) = true in
  ∃ out,
    calculateNonSilentSegments silences totalDuration cfg = Some out
    ∧ last silences = Some (lastSilence s0 rest)
    ∧ (out = kept ++ [trailing] ↔ guard)
    ∧ (out = kept ↔ ¬ guard)
    ∧ (PrimFloat.eqb (segLength trailing) 0.1 = true → out = kept)
    ∧ (PrimFloat.eqb (segLength trailing) 0.1000001 = true →
       PrimFloat.eqb (MinSongLength cfg) 0 = true →
         out = kept ++ [trailing])
    ∧ (∀ c, c ∈ leadingCandidate s0 :: middleCandidates silences →
            (c ∈ kept ↔ geb (segLength c) (MinSongLength cfg) = true)).
Proof.
  intros silences trailing kept guard.
  eexists. split; [apply calculate_cons|].
  split; [apply last_cons_lastSilence|].
  fold silences trailing kept.
  pose proof (trailingKept_iff cfg trailing) as Hiff.
  unfold segLength in Hiff. simpl in Hiff. fold guard in Hiff.
  assert (kept ++ [trailing] ≠ kept) as Hlonger.
  { intros Heq. apply (f_equal length) in Heq.
    rewrite length_app in Heq. simpl in Heq. lia. }
  assert (∀ c, c ∈ leadingCandidate s0 :: middleCandidates silences →
            (c ∈ kept ↔ geb (segLength c) (MinSongLength cfg) = true)) as Hkept.
  { intros c Hc. subst kept. rewrite list_elem_of_filter.
    unfold longEnough. split; [by intros [? _] | by intros ?]. }
  destruct (decide (trailingKept cfg trailing)) as [Hk|Hk].
  - rewrite (filter_cons_True (trailingKept cfg)) by done. rewrite filter_nil.
    pose proof (proj1 Hiff Hk) as Hguard.
    split; [done|]. split; [done|].
    split; [intros He; by destruct (trailingKept_epsilon cfg trailing He)|].
    done.
  - rewrite (filter_cons_False (trailingKept cfg)) by done.
    rewrite filter_nil, app_nil_r.
    assert (¬ guard) as Hguard by (by rewrite <- Hiff).
    split; [split; [by intros Heq; symmetry in Heq|done]|].
    split; [done|]. split; [done|].
    split; [|done].
    intros H1 H2. by destruct Hk; apply trailingKept_above_epsilon.
Qed.

Lemma C2_witness :
  (* a trailing candidate of length exactly 0.1 is rejected *)
  calculateNonSilentSegments [mkSegment 0 0.1] 0.2
    (set_MinSongLength 0 defaultConfig) = Some [mkSegment 0 0]
  (* one of length 0.1000001 is accepted when the minimum is 0 *)
  ∧ calculateNonSilentSegments [mkSegment 0 0.05] 0.1500001
      (set_MinSongLength 0 defaultConfig)
    = Some [mkSegment 0 0; mkSegment 0.05 0.1500001].
Proof.
  split.
  - destruct (C2_trailing_candidate (mkSegment 0 0.1) [] 0.2
                (set_MinSongLength 0 defaultConfig))
      as (out & Hout & _ & _ & _ & Heps & _ & _).
    rewrite Hout. f_equal. rewrite Heps by reflexivity. reflexivity.
  - destruct (C2_trailing_candidate (mkSegment 0 0.05) [] 0.1500001
                (set_MinSongLength 0 defaultConfig))
      as (out & Hout & _ & _ & _ & _ & Habove & _).
    rewrite Hout. f_equal. rewrite Habove by reflexivity. reflexivity.
Defined.

(** C3.  On an empty silence list the result is the empty sequence,
    whatever the duration and the minimum length. *)
Theorem C3_empty_silences totalDuration cfg :
  calculateNonSilentSegments [] totalDuration cfg = Some [].
Proof. reflexivity. Qed.

(** C5.  When no silence was detected, the list handed to the exporter is
    the single segment [0, totalDuration) exactly when
    [totalDuration >= MinSongLength], and it is empty otherwise, in
    particular when [totalDuration < MinSongLength]. *)
Theorem C5_no_silence_policy totalDuration cfg :
  mainSongSegments [] totalDuration cfg =
    Some (if geb totalDuration (MinSongLength cfg)
          then [mkSegment 0 totalDuration] else [])
  ∧ (geb totalDuration (MinSongLength cfg) = true ↔
       mainSongSegments [] totalDuration cfg = Some [mkSegment 0 totalDuration])
  ∧ (PrimFloat.ltb totalDuration (MinSongLength cfg) = true →
       mainSongSegments [] totalDuration cfg = Some []).
Proof.
  unfold mainSongSegments. simpl.
  destruct (geb totalDuration (MinSongLength cfg)) eqn:E.
  - repeat split; try done.
    intros H%FloatOrder.ltb_not_leb. unfold geb in E. congruence.
  - repeat split; done.
Qed.

Lemma C5_witness :
  mainSongSegments [] 150 defaultConfig = Some []
  ∧ mainSongSegments [] 300 defaultConfig = Some [mkSegment 0 300].
Proof.
  destruct (C5_no_silence_policy 150 defaultConfig) as (_ & _ & Hshort).
  destruct (C5_no_silence_policy 300 defaultConfig) as (_ & Hlong & _).
  split.
  - apply Hshort. reflexivity.
  - apply Hlong. reflexivity.
Defined.

(** ** Order and containment of the output *)

Section Gaps.
Import FloatOrder.

Lemma gaps_cons lo s tl hi :
  gaps lo (s :: tl) hi =
    mkSegment lo (start s) :: middleCandidates (s :: tl)
    ++ [trailingCandidate (lastSilence s tl) hi].
Proof.
  revert lo s. induction tl as [|t tl IH]; intros lo s; [done|].
  change (gaps lo (s :: t :: tl) hi)
    with (mkSegment lo (start s) :: gaps (end_ s) (t :: tl) hi).
  rewrite IH. unfold lastSilence.
  destruct tl as [|u tl] using rev_ind; [done|].
  by rewrite !app_comm_cons, !last_snoc.
Qed.

(** What the function returns is a sublist of all the gaps. *)
Lemma calculate_sublist_gaps s0 rest totalDuration cfg out :
  calculateNonSilentSegments (s0 :: rest) totalDuration cfg = Some out →
  out `sublist_of` gaps 0 (s0 :: rest) totalDuration.
Proof.
  rewrite calculate_cons. intros [= <-]. rewrite gaps_cons.
  change (mkSegment 0 (start s0) :: middleCandidates (s0 :: rest)
          ++ [trailingCandidate (lastSilence s0 rest) totalDuration])
    with ((leadingCandidate s0 :: middleCandidates (s0 :: rest))
          ++ [trailingCandidate (lastSilence s0 rest) totalDuration]).
  apply sublist_app; apply sublist_filter.
Qed.

Lemma chain_intro lo silences :
  Forall (λ s, PrimFloat.leb (start s) (end_ s) = true) silences →
  nonOverlappingb silences = true →
  match silences with
  | [] => True
  | s :: _ => PrimFloat.leb lo (start s) = true
  end →
  chain lo silences.
Proof.
  revert lo. induction silences as [|s tl IH]; intros lo Hord Hno Hlo; [done|].
  apply Forall_cons in Hord as [Hs Htl]. simpl.
  split; [done|]. split; [done|].
  apply IH; [done| |]; destruct tl as [|t tl]; try done;
    simpl in Hno; by apply andb_true_iff in Hno as [? ?].
Qed.

Lemma chain_lower lo silences :
  chain lo silences →
  Forall (λ s, PrimFloat.leb lo (start s) = true) silences.
Proof.
  revert lo. induction silences as [|s tl IH]; intros lo Hc; [done|].
  destruct Hc as (Hlo & Hs & Htl). constructor; [done|].
  eapply Forall_impl; [apply IH, Htl|]. simpl. intros s' Hs'.
  eauto using leb_trans.
Qed.

Lemma gaps_start_ge lo silences hi :
  PrimFloat.leb lo lo = true → chain lo silences →
  Forall (λ g, PrimFloat.leb lo (start g) = true) (gaps lo silences hi).
Proof.
  revert lo. induction silences as [|s tl IH]; intros lo Hrefl Hc; simpl.
  - by constructor.
  - destruct Hc as (Hlo & Hs & Htl). constructor; [done|].
    eapply Forall_impl; [apply IH; eauto using leb_refl_r|].
    simpl. intros g Hg. eauto using leb_trans.
Qed.


Lemma gaps_within_disjoint lo silences hi :
  PrimFloat.leb lo hi = true → chain lo silences →
  Forall (λ s, PrimFloat.leb (end_ s) hi = true) silences →
  ∀ g, g ∈ gaps lo silences hi →
    PrimFloat.leb lo (start g) = true ∧
    PrimFloat.leb (start g) (end_ g) = true ∧
    PrimFloat.leb (end_ g) hi = true ∧
    ∀ s, s ∈ silences → disjointb g s = true.
Proof.
  revert lo. induction silences as [|s tl IH]; intros lo Hlohi Hc Hhi g Hg.
  - apply list_elem_of_singleton in Hg as ->. simpl.
    repeat split; eauto using leb_refl_l, leb_refl_r.
    intros s Hs. by apply elem_of_nil in Hs.
  - destruct Hc as (Hlo & Hs & Htl).
    apply Forall_cons in Hhi as [Hshi Htlhi].
    simpl in Hg. apply elem_of_cons in Hg as [->|Hg]; simpl.
    + repeat split; eauto using leb_refl_l, leb_trans.
      intros s' [->|Hs']%elem_of_cons; unfold disjointb; simpl.
      * rewrite (leb_refl_r _ _ Hlo). done.
      * apply chain_lower in Htl.
        rewrite Forall_forall in Htl. specialize (Htl _ Hs').
        by rewrite (leb_trans _ _ _ Hs Htl).
    + destruct (IH (end_ s) Hshi Htl Htlhi g Hg) as (H1 & H2 & H3 & H4).
      repeat split; eauto using leb_trans.
      intros s' [->|Hs']%elem_of_cons; [|by apply H4].
      unfold disjointb. rewrite H1. by rewrite orb_true_r.
Qed.

Lemma StronglySorted_sublist {A} (R : A → A → Prop) l1 l2 :
  l1 `sublist_of` l2 → StronglySorted R l2 → StronglySorted R l1.
Proof.
  induction 1 as [|x l1 l2 Hsub IH|x l1 l2 Hsub IH]; intros Hs.
  - constructor.
  - apply StronglySorted_cons in Hs as [Hx Hs].
    apply StronglySorted_cons. split; [|by apply IH].
    rewrite Forall_forall in Hx |- *. intros y Hy.
    apply Hx. by eapply elem_of_sublist.
  - apply StronglySorted_cons in Hs as [_ Hs]. by apply IH.
Qed.


(** Intervals that [disjointb] accepts have no instant in common. *)
Lemma disjointb_sound a b x :
  disjointb a b = true → ¬ (inSegment x a = true ∧ inSegment x b = true).
Proof.
  unfold disjointb, inSegment.
  intros Hd [[Ha1 Ha2]%andb_true_iff [Hb1 Hb2]%andb_true_iff].
  apply orb_true_iff in Hd as [Hd|Hd].
  - pose proof (ltb_leb_trans _ _ _ Ha2 Hd) as H.
    apply ltb_not_leb in H. congruence.
  - pose proof (ltb_leb_trans _ _ _ Hb2 Hd) as H.
    apply ltb_not_leb in H. congruence.
Qed.

Lemma forallb_Forall {A} (f : A → bool) l :
  forallb f l = true → Forall (λ x, f x = true) l.
Proof.
  induction l as [|x l IH]; simpl; [done|].
  intros [? ?]%andb_true_iff. constructor; auto.
Qed.

End Gaps.




(** C9.  When every silence satisfies [0 <= start <= end <= totalDuration]
    and ends before the next one starts, every returned interval [c] lies
    within [0, totalDuration] ([0 <= start c <= end c <= totalDuration]) and
    is disjoint from every input silence: one ends where the other starts or
    before, so no instant lies in both half-open intervals. *)
Theorem C9_segments_within_and_disjoint silences totalDuration cfg :
  forallb (withinb totalDuration) silences = true →
  nonOverlappingb silences = true →
  ∃ out,
    calculateNonSilentSegments silences totalDuration cfg = Some out
    ∧ ∀ c, c ∈ out →
        withinb totalDuration c = true
        ∧ ∀ s, s ∈ silences →
            disjointb c s = true
            ∧ ∀ x, ¬ (inSegment x c = true ∧ inSegment x s = true).
Proof.
  intros Hin Hno. destruct silences as [|s0 rest].
  { exists []. split; [done|]. intros c Hc. by apply elem_of_nil in Hc. }
  eexists. split; [apply calculate_cons|]. intros c Hc.
  apply forallb_Forall in Hin.
  assert (Forall (λ s, PrimFloat.leb 0 (start s) = true
                       ∧ PrimFloat.leb (start s) (end_ s) = true
                       ∧ PrimFloat.leb (end_ s) totalDuration = true)
            (s0 :: rest)) as Hall.
  { eapply Forall_impl; [exact Hin|]. intros s Hs. unfold withinb in Hs.
    apply andb_true_iff in Hs as [[? ?]%andb_true_iff ?]. done. }
  pose proof (Forall_inv Hall) as (H0 & H0e & H0t).
  destruct (gaps_within_disjoint 0 (s0 :: rest) totalDuration) with (g := c)
    as (H1 & H2 & H3 & H4).
  - eauto using FloatOrder.leb_trans.
  - apply chain_intro; [|done|done].
    eapply Forall_impl; [exact Hall|]. by intros s (_ & ? & _).
  - eapply Forall_impl; [exact Hall|]. by intros s (_ & _ & ?).
  - eapply elem_of_sublist; [exact Hc|].
    apply calculate_sublist_gaps with (cfg := cfg), calculate_cons.
  - split; [unfold withinb; by rewrite H1, H2, H3|].
    intros s Hs. split; [by apply H4|]. intros x. by apply disjointb_sound, H4.
Qed.

Lemma C9_witness :
  ∃ out,
    calculateNonSilentSegments [mkSegment 100 110; mkSegment 200 210] 300
      (set_MinSongLength 10 zeroConfig) = Some out
    ∧ ∀ c, c ∈ out →
        withinb 300 c = true
        ∧ ∀ s, s ∈ [mkSegment 100 110; mkSegment 200 210] →
            disjointb c s = true
            ∧ ∀ x, ¬ (inSegment x c = true ∧ inSegment x s = true).
Proof.
  apply (C9_segments_within_and_disjoint
           [mkSegment 100 110; mkSegment 200 210] 300
           (set_MinSongLength 10 zeroConfig)); reflexivity.
Defined.

(** ** The configuration merge *)

Section ConfigMerge.

Lemma flagSet_foldl name visited (m : gmap string bool) :
  flagSet (foldl (λ userSetFlags n, <[n := true]> userSetFlags) m visited) name
  = bool_decide (name ∈ visited) || flagSet m name.
Proof.
  revert m. induction visited as [|v vs IH]; intros m; simpl; [done|].
  rewrite IH. unfold flagSet.
  destruct (decide (v = name)) as [->|Hne].
  - rewrite lookup_insert_eq. simpl.
    rewrite (bool_decide_true (name ∈ name :: vs)) by apply list_elem_of_here.
    by rewrite orb_true_r.
  - rewrite lookup_insert_ne by done.
    f_equal. apply bool_decide_ext. rewrite elem_of_cons.
    split; [tauto | intros [E|E]; [by subst | done]].
Qed.

(** A flag reads as set exactly when [flag.Visit] reported it. *)
Lemma flagSet_visited name visited :
  flagSet (userSetFlagsOf visited) name = bool_decide (name ∈ visited).
Proof.
  unfold userSetFlagsOf. rewrite flagSet_foldl.
  unfold flagSet. rewrite lookup_empty. simpl. by rewrite orb_false_r.
Qed.

(** Reading a field through an assignment to another field. *)
Lemma ifThen_skip {A} (F : Config → A) (b : bool) assign cfg :
  (∀ c, F (assign c) = F c) → F (ifThen b assign cfg) = F cfg.
Proof. intros H. destruct b; [apply H | done]. Qed.

Lemma ifThen_true assign cfg : ifThen true assign cfg = assign cfg.
Proof. done. Qed.

Lemma ifThen_false assign cfg : ifThen false assign cfg = cfg.
Proof. done. Qed.

Lemma ifThen_congr {A} (set : A → Config → Config) (b b' : bool) v v' c c' :
  b = b' → (b = true → v = v') → c = c' →
  ifThen b (set v) c = ifThen b' (set v') c'.
Proof. intros <- Hv <-. destruct b; [|done]. simpl. by rewrite Hv. Qed.

End ConfigMerge.

Ltac peel F := repeat (rewrite (ifThen_skip F) by (intros; reflexivity)).

(** The value of a setting whose flag was given. *)
Ltac flag_wins F H :=
  unfold loadConfig;
  match goal with
  | |- context [loadConfigFromFile ?f] =>
      destruct (loadConfigFromFile f) as [fileConfig err]
  end;
  cbv zeta; rewrite !flagSet_visited;
  rewrite (bool_decide_true _ H), ifThen_true;
  peel F; reflexivity.

(** C6.  A flag given on the command line decides the final value of its
    setting, whatever the config file holds (missing, unparsable, or any
    parsed content); in particular [-upload=false] overrides a file that
    sets [upload_to_drive] to [true]. *)
Theorem C6_cli_flag_wins file cli visited :
  let cfg := loadConfig file cli visited in
  ("input" ∈ visited → InputFile cfg = cliInput cli)
  ∧ ("duration" ∈ visited → MinSilenceDur cfg = cliDuration cli)
  ∧ ("threshold" ∈ visited → SilenceThreshold cfg = cliThreshold cli)
  ∧ ("minsonglength" ∈ visited → MinSongLength cfg = cliMinSongLength cli)
  ∧ ("prefix" ∈ visited → OutputPrefix cfg = cliPrefix cli)
  ∧ ("output" ∈ visited → OutputDir cfg = cliOutput cli)
  ∧ ("upload" ∈ visited → UploadToDrive cfg = cliUpload cli)
  ∧ ("remote" ∈ visited → RcloneRemote cfg = cliRemote cli)
  ∧ ("subfolder" ∈ visited → DriveSubfolder cfg = cliSubfolder cli)
  ∧ ("setlist" ∈ visited → SetlistFile cfg = cliSetlistFile cli)
  ∧ (∀ j, file = FileParsed j → upload_to_drive j = Some true →
          "upload" ∈ visited → cliUpload cli = false →
          UploadToDrive cfg = false).
Proof.
  intros cfg. subst cfg.
  assert ("upload" ∈ visited →
          UploadToDrive (loadConfig file cli visited) = cliUpload cli) as Hup.
  { intros H. flag_wins UploadToDrive H. }
  split; [intros H; flag_wins InputFile H|].
  split; [intros H; flag_wins MinSilenceDur H|].
  split; [intros H; flag_wins SilenceThreshold H|].
  split; [intros H; flag_wins MinSongLength H|].
  split; [intros H; flag_wins OutputPrefix H|].
  split; [intros H; flag_wins OutputDir H|].
  split; [exact Hup|].
  split; [intros H; flag_wins RcloneRemote H|].
  split; [intros H; flag_wins DriveSubfolder H|].
  split; [intros H; flag_wins SetlistFile H|].
  intros j _ _ H Hfalse. by rewrite Hup.
Qed.

Lemma C6_witness :
  UploadToDrive
    (loadConfig
       (FileParsed (mkConfigJSON (Some "file_video.mp4") None None (Some 60%float)
                      None None (Some true) None None None))
       (mkCliFlags "config.json" "cli_video.mp4" 2 "-12dB" 200 "Song" "output"
          false "gdrive:" "SplitSongs" "")
       ["input"; "upload"]) = false.
Proof.
  pose proof (C6_cli_flag_wins
            (FileParsed (mkConfigJSON (Some "file_video.mp4") None None
                           (Some 60%float) None None (Some true) None None None))
            (mkCliFlags "config.json" "cli_video.mp4" 2 "-12dB" 200 "Song"
               "output" false "gdrive:" "SplitSongs" "")
            ["input"; "upload"])
    as (_ & _ & _ & _ & _ & _ & _ & _ & _ & _ & Hupload).
  eapply Hupload.
  - reflexivity.
  - reflexivity.
  - apply list_elem_of_further, list_elem_of_here.
  - reflexivity.
Defined.

Section ZeroValues.

(** The test the file layer applies to a string, a number and the boolean
    fails on an absent key as on a zero value. *)
Lemma string_test_zero o :
  zeroOrAbsent emptyString o = true → bool_decide (default "" o ≠ "") = false.
Proof.
  destruct o as [v|]; simpl; [|done]. unfold emptyString.
  intros ->%bool_decide_eq_true. done.
Qed.

Lemma float_test_zero o :
  zeroOrAbsent zeroFloat o = true → neqb (default 0%float o) 0 = false.
Proof.
  destruct o as [v|]; simpl; [|done]. unfold zeroFloat, neqb.
  by intros ->.
Qed.

Lemma bool_test_zero o :
  zeroOrAbsent negb o = true → default false o = false.
Proof. destruct o as [[]|]; simpl; done. Qed.

Lemma string_test_same o1 o2 :
  sameOrZero emptyString o1 o2 →
  bool_decide (default "" o1 ≠ "") = bool_decide (default "" o2 ≠ "")
  ∧ (bool_decide (default "" o1 ≠ "") = true → default "" o1 = default "" o2).
Proof.
  intros [->|[H1 H2]]; [done|].
  rewrite !string_test_zero by done. done.
Qed.

Lemma float_test_same o1 o2 :
  sameOrZero zeroFloat o1 o2 →
  neqb (default 0%float o1) 0 = neqb (default 0%float o2) 0
  ∧ (neqb (default 0%float o1) 0 = true →
     default 0%float o1 = default 0%float o2).
Proof.
  intros [->|[H1 H2]]; [done|].
  rewrite !float_test_zero by done. done.
Qed.

Lemma bool_test_same o1 o2 :
  sameOrZero negb o1 o2 →
  default false o1 = default false o2.
Proof.
  intros [->|[H1 H2]]; [done|].
  rewrite !bool_test_zero by done. done.
Qed.

(** Files that differ only by zero values load to the same configuration. *)
Lemma loadConfig_jsonEquiv j1 j2 cli visited :
  jsonEquiv j1 j2 →
  loadConfig (FileParsed j1) cli visited = loadConfig (FileParsed j2) cli visited.
Proof.
  intros (H1 & H2 & H3 & H4 & H5 & H6 & H7 & H8 & H9 & H10).
  apply string_test_same in H1 as [? ?], H3 as [? ?], H5 as [? ?],
    H6 as [? ?], H8 as [? ?], H9 as [? ?], H10 as [? ?].
  apply float_test_same in H2 as [? ?], H4 as [? ?].
  apply bool_test_same in H7.
  unfold loadConfig. cbn [loadConfigFromFile]. cbv zeta iota beta.
  do 10 f_equal.
  cbn [unmarshalConfig InputFile MinSilenceDur SilenceThreshold MinSongLength
       OutputPrefix OutputDir UploadToDrive RcloneRemote DriveSubfolder
       SetlistFile].
  repeat (apply ifThen_congr; try done).
Qed.

End ZeroValues.

(** The value of a setting that the file leaves at zero and no flag sets. *)
Ltac default_stays F Hflag Htest :=
  unfold loadConfig; cbn [loadConfigFromFile]; cbv zeta iota beta;
  rewrite !flagSet_visited; rewrite (bool_decide_false _ Hflag), ifThen_false;
  peel F;
  cbn [unmarshalConfig InputFile MinSilenceDur SilenceThreshold MinSongLength
       OutputPrefix OutputDir UploadToDrive RcloneRemote DriveSubfolder
       SetlistFile];
  rewrite Htest, ifThen_false; peel F; reflexivity.

(** C10.  In the file layer a key written with the zero value of its type
    ([""], [0], [false]) behaves as an absent key: two files that differ only
    in such keys load to the same configuration, and when no flag sets the
    field its default stays.  So [min_song_length: 0] and
    [upload_to_drive: false] in the file never take effect: a final
    [MinSongLength] of 0 needs the flag [-minsonglength], and a final
    [UploadToDrive] of [false] over a file that says [true] needs the flag
    [-upload]. *)
Theorem C10_zero_value_is_absent_key (j j' : configJSON) cli visited :
  let cfg := loadConfig (FileParsed j) cli visited in
  (jsonEquiv j j' → cfg = loadConfig (FileParsed j') cli visited)
  ∧ (zeroOrAbsent emptyString (input_file j) = true → "input" ∉ visited →
       InputFile cfg = InputFile defaultConfig)
  ∧ (zeroOrAbsent zeroFloat (min_silence_duration j) = true →
     "duration" ∉ visited →
       MinSilenceDur cfg = MinSilenceDur defaultConfig)
  ∧ (zeroOrAbsent emptyString (silence_threshold j) = true →
     "threshold" ∉ visited →
       SilenceThreshold cfg = SilenceThreshold defaultConfig)
  ∧ (zeroOrAbsent zeroFloat (min_song_length j) = true →
     "minsonglength" ∉ visited →
       MinSongLength cfg = MinSongLength defaultConfig)
  ∧ (zeroOrAbsent emptyString (output_prefix j) = true → "prefix" ∉ visited →
       OutputPrefix cfg = OutputPrefix defaultConfig)
  ∧ (zeroOrAbsent emptyString (output_dir j) = true → "output" ∉ visited →
       OutputDir cfg = OutputDir defaultConfig)
  ∧ (zeroOrAbsent negb (upload_to_drive j) = true → "upload" ∉ visited →
       UploadToDrive cfg = UploadToDrive defaultConfig)
  ∧ (zeroOrAbsent emptyString (rclone_remote j) = true → "remote" ∉ visited →
       RcloneRemote cfg = RcloneRemote defaultConfig)
  ∧ (zeroOrAbsent emptyString (drive_subfolder j) = true →
     "subfolder" ∉ visited →
       DriveSubfolder cfg = DriveSubfolder defaultConfig)
  ∧ (zeroOrAbsent emptyString (setlist_file j) = true → "setlist" ∉ visited →
       SetlistFile cfg = SetlistFile defaultConfig)
  ∧ (PrimFloat.eqb (MinSongLength cfg) 0 = true → "minsonglength" ∈ visited)
  ∧ (upload_to_drive j = Some true → UploadToDrive cfg = false →
       "upload" ∈ visited).
Proof.
  intros cfg. subst cfg.
  split; [apply loadConfig_jsonEquiv|].
  split; [intros Hz%string_test_zero Hf; default_stays InputFile Hf Hz|].
  split; [intros Hz%float_test_zero Hf; default_stays MinSilenceDur Hf Hz|].
  split; [intros Hz%string_test_zero Hf; default_stays SilenceThreshold Hf Hz|].
  split; [intros Hz%float_test_zero Hf; default_stays MinSongLength Hf Hz|].
  split; [intros Hz%string_test_zero Hf; default_stays OutputPrefix Hf Hz|].
  split; [intros Hz%string_test_zero Hf; default_stays OutputDir Hf Hz|].
  split; [intros Hz%bool_test_zero Hf; default_stays UploadToDrive Hf Hz|].
  split; [intros Hz%string_test_zero Hf; default_stays RcloneRemote Hf Hz|].
  split; [intros Hz%string_test_zero Hf; default_stays DriveSubfolder Hf Hz|].
  split; [intros Hz%string_test_zero Hf; default_stays SetlistFile Hf Hz|].
  split.
  - intros Hzero. destruct (decide ("minsonglength" ∈ visited)) as [|Hf]; [done|].
    exfalso. revert Hzero.
    unfold loadConfig; cbn [loadConfigFromFile]; cbv zeta iota beta.
    rewrite !flagSet_visited, (bool_decide_false _ Hf), ifThen_false.
    peel MinSongLength.
    destruct (neqb (MinSongLength (unmarshalConfig j)) 0) eqn:E.
    + rewrite ifThen_true. cbn [set_MinSongLength MinSongLength].
      unfold neqb in E. apply negb_true_iff in E. by rewrite E.
    + rewrite ifThen_false. peel MinSongLength. cbn. done.
  - intros Hfile Hfalse.
    destruct (decide ("upload" ∈ visited)) as [|Hf]; [done|].
    exfalso. revert Hfalse.
    unfold loadConfig; cbn [loadConfigFromFile]; cbv zeta iota beta.
    rewrite !flagSet_visited, (bool_decide_false _ Hf), ifThen_false.
    peel UploadToDrive.
    cbn [unmarshalConfig UploadToDrive]. rewrite Hfile. cbn [default].
    rewrite ifThen_true. cbn. done.
Qed.

Lemma C10_witness :
  (* min_song_length: 0 and upload_to_drive: false, written in the file *)
  loadConfig
    (FileParsed (mkConfigJSON None None None (Some 0%float) None None
                   (Some false) None None None))
    defaultFlags ["config"]
  = loadConfig (FileParsed emptyJSON) defaultFlags ["config"]
  ∧ MinSongLength
      (loadConfig
         (FileParsed (mkConfigJSON None None None (Some 0%float) None None
                        (Some false) None None None))
         defaultFlags ["config"]) = 200%float.
Proof.
  pose proof (C10_zero_value_is_absent_key
                (mkConfigJSON None None None (Some 0%float) None None
                   (Some false) None None None)
                emptyJSON defaultFlags ["config"])
    as (Hsame & _ & _ & _ & Hmin & _).
  split.
  - apply Hsame. unfold jsonEquiv, sameOrZero. simpl.
    repeat split; first [by left | by right].
  - apply Hmin; [reflexivity|].
    intros H. apply list_elem_of_singleton in H. discriminate H.
Defined.


(** ** The title sanitizer *)

Section Sanitizer.

Lemma string_app_cons c (s t : string) : String c s +:+ t = String c (s +:+ t).
Proof. reflexivity. Qed.

Lemma string_app_nil_l (s : string) : "" +:+ s = s.
Proof. reflexivity. Qed.

Lemma string_app_nil_r (s : string) : s +:+ "" = s.
Proof.
  induction s as [|c s IH]; [done|]. by rewrite string_app_cons, IH.
Qed.

Lemma string_app_assoc (s1 s2 s3 : string) :
  (s1 +:+ s2) +:+ s3 = s1 +:+ (s2 +:+ s3).
Proof.
  induction s1 as [|c s1 IH]; [done|]. by rewrite !string_app_cons, IH.
Qed.

Lemma allChars_app P s1 s2 :
  allChars P (s1 +:+ s2) = allChars P s1 && allChars P s2.
Proof.
  induction s1 as [|c s1 IH]; [done|].
  rewrite string_app_cons. simpl. by rewrite IH, andb_assoc.
Qed.

(** *** What survives *)

Lemma removeInvalidChars_valid s :
  allChars (λ c, negb (invalidChar c)) (removeInvalidChars s) = true.
Proof.
  induction s as [|c s IH]; simpl; [done|].
  destruct (invalidChar c) eqn:E; simpl; [done|]. by rewrite E, IH.
Qed.



Lemma replaceSpaces_output s :
  allChars (λ c, negb (invalidChar c)) s = true →
  allChars outputChar (replaceSpaces s) = true.
Proof.
  induction s as [|c s IH]; simpl; [done|].
  intros [Hc Hs]%andb_true_iff. rewrite (IH Hs), andb_true_r.
  clear IH Hs. revert Hc.
  unfold invalidChar, isWordChar, isRegexpSpace, outputChar, isOtherSpace,
    isLetter, isDigit, isUnderscore, isHyphen, isSpaceChar.
  destruct (byte c =? 32) eqn:E32; [done|].
  cbv iota. generalize (byte c) as n. intros n.
  destruct (48 <=? n), (n <=? 57), (65 <=? n), (n <=? 90), (97 <=? n),
    (n <=? 122), (n =? 95), (n =? 9), (n =? 10), (n =? 12), (n =? 13),
    (n =? 45); done.
Qed.

Lemma replaceSpaces_no_space s :
  allChars (λ c, negb (isSpaceChar c)) (replaceSpaces s) = true.
Proof.
  induction s as [|c s IH]; simpl; [done|]. rewrite IH, andb_true_r.
  destruct (isSpaceChar c) eqn:E; [done|]. by rewrite E.
Qed.


(** *** Trimming *)













Lemma spaces_app ws1 ws2 : spaces ws1 → spaces ws2 → spaces (ws1 +:+ ws2).
Proof.
  induction 1 as [|e ws He Hws IH]; intros H2; [done|].
  rewrite string_app_assoc. constructor; auto.
Qed.














End Sanitizer.

Section SanitizerClaims.


Lemma sanitizeFilename_chars name :
  allChars outputChar (sanitizeFilename name) = true
  ∧ allChars (λ c, negb (isSpaceChar c)) (sanitizeFilename name) = true.
Proof.
  unfold sanitizeFilename.
  destruct (decide (replaceSpaces (removeInvalidChars (TrimSpace name)) = ""));
    [done|].
  split.
  - apply replaceSpaces_output, removeInvalidChars_valid.
  - apply replaceSpaces_no_space.
Qed.





End SanitizerClaims.

(** ** Renaming from the setlist *)

(** The lines [renameFilesFromSetlist] prints. *)
Inductive logLine (error : Type) :=
  | LogRenamingStart
  | LogOpenError (setlistFile : string) (err : error)
  | LogSkippingRename
  | LogScanError (err : error)
  | LogFewerTitles (titles files : nat)
  | LogOnlyFirst (titles : nat)
  | LogMoreTitles (titles files : nat)
  | LogRenameError (oldFilePath newFilePath : string) (err : error)
  | LogRenamed (oldBase newFileName : string)
  | LogRenamingComplete.
Arguments LogRenamingStart {error}.
Arguments LogOpenError {error}.
Arguments LogSkippingRename {error}.
Arguments LogScanError {error}.
Arguments LogFewerTitles {error}.
Arguments LogOnlyFirst {error}.
Arguments LogMoreTitles {error}.
Arguments LogRenameError {error}.
Arguments LogRenamed {error}.
Arguments LogRenamingComplete {error}.

(** What [os.Open] and the [bufio.Scanner] loop give: the open fails, or the
    scanner yields lines and then ends with or without an error. *)
Inductive setlistRead (error : Type) :=
  | OpenFailed (err : error)
  | Scanned (lines : list string) (scanErr : option error).
Arguments OpenFailed {error}.
Arguments Scanned {error}.

Section Rename.
Context {World error : Type}.

(** The file system and the path functions of the standard library. *)
Variable os_Rename : string → string → World → World * option error.
Variable readSetlist : string → World → setlistRead error.
Variable filepath_Dir : string → string.
Variable filepath_Join : string → string → string.
Variable filepath_Base : string → string.

(** The state threaded through: the file system and the log. *)
Definition renameState : Type := World * list (logLine error).

(** The body of the loop [for i, oldFilePath := range exportedFiles], after
    the test for [break]. *)
Definition renameBody (i : nat) (oldFilePath title : string)
    (st : renameState) : renameState :=
  let dir := filepath_Dir oldFilePath in
  let ext := filepath_Ext oldFilePath in
  let newSongName := sanitizeFilename title in
  let newFileName := Sprintf_02d (i + 1) +:+ " - " +:+ newSongName +:+ ext in
  let newFilePath := filepath_Join dir newFileName in
  let '(w, err) := os_Rename oldFilePath newFilePath st.1 in
  match err with
  | Some e => (w, st.2 ++ [LogRenameError oldFilePath newFilePath e])
  | None => (w, st.2 ++ [LogRenamed (filepath_Base oldFilePath) newFileName])
  end.

(** The loop itself, at index [i] with [exportedFiles] still to visit. *)
Fixpoint renameLoop (i : nat) (exportedFiles songTitles : list string)
    (st : renameState) : option renameState :=
  match exportedFiles with
  | [] => Some st
  | oldFilePath :: rest =>
      if decide (length songTitles ≤ i) then Some st
      else
        title ← songTitles !! i;
        renameLoop (i + 1) rest songTitles (renameBody i oldFilePath title st)
  end.

(** [func renameFilesFromSetlist(cfg Config, exportedFiles []string)] *)
Definition renameFilesFromSetlist (cfg : Config) (exportedFiles : list string)
    (st : renameState) : option renameState :=
  let '(w, log) := st in
  let log := log ++ [LogRenamingStart] in
  match readSetlist (SetlistFile cfg) w with
  | OpenFailed err =>
      Some (w, log ++ [LogOpenError (SetlistFile cfg) err; LogSkippingRename])
  | Scanned lines scanErr =>
      let songTitles := filter (λ title, title ≠ "") lines in
      match scanErr with
      | Some err => Some (w, log ++ [LogScanError err; LogSkippingRename])
      | None =>
          let log :=
            if length songTitles <? length exportedFiles then
              log ++ [LogFewerTitles (length songTitles) (length exportedFiles);
                      LogOnlyFirst (length songTitles)]
            else if length exportedFiles <? length songTitles then
              log ++ [LogMoreTitles (length songTitles) (length exportedFiles)]
            else log in
          st ← renameLoop 0 exportedFiles songTitles (w, log);
          Some (st.1, st.2 ++ [LogRenamingComplete])
      end
  end.

(** File [i] paired with title [i], for every [i] below both lengths. *)
Definition renamePairs (i : nat) (exportedFiles songTitles : list string)
    : list (nat * (string * string)) :=
  zip (seq i (length exportedFiles)) (zip exportedFiles songTitles).

Definition renameStep (st : renameState) (p : nat * (string * string))
    : renameState :=
  renameBody p.1 p.2.1 p.2.2 st.

Lemma renameLoop_fold exportedFiles songTitles : ∀ i st,
  renameLoop i exportedFiles songTitles st =
    Some (foldl renameStep st
            (renamePairs i exportedFiles (drop i songTitles))).
Proof.
  unfold renamePairs.
  induction exportedFiles as [|f fs IH]; intros i st; [done|]. simpl.
  destruct (decide (length songTitles ≤ i)) as [Hle|Hgt].
  - by rewrite drop_ge by done.
  - destruct (lookup_lt_is_Some_2 songTitles i) as [t Ht]; [lia|].
    rewrite Ht. simpl. rewrite (drop_S _ _ _ Ht). simpl.
    replace (i + 1) with (S i) by lia. by rewrite IH.
Qed.

Lemma renamePairs_length exportedFiles songTitles :
  length (renamePairs 0 exportedFiles songTitles)
  = length exportedFiles `min` length songTitles.
Proof.
  unfold renamePairs. rewrite !length_zip_with, length_seq. lia.
Qed.

Lemma renamePairs_lookup exportedFiles songTitles i f t :
  exportedFiles !! i = Some f → songTitles !! i = Some t →
  renamePairs 0 exportedFiles songTitles !! i = Some (i, (f, t)).
Proof.
  intros Hf Ht. unfold renamePairs.
  rewrite lookup_zip_with, lookup_seq_lt by by eapply lookup_lt_Some.
  simpl. by rewrite lookup_zip_with, Hf, Ht.
Qed.

Lemma renameLoop_take_files songTitles exportedFiles : ∀ i st,
  renameLoop i (take (length songTitles - i) exportedFiles) songTitles st
  = renameLoop i exportedFiles songTitles st.
Proof.
  induction exportedFiles as [|f fs IH]; intros i st.
  - by rewrite take_nil.
  - simpl. destruct (decide (length songTitles ≤ i)) as [Hle|Hgt].
    + replace (length songTitles - i) with 0 by lia. done.
    + replace (length songTitles - i) with (S (length songTitles - (i + 1)))
        by lia.
      simpl. rewrite decide_False by done.
      destruct (songTitles !! i); simpl; [|done]. apply IH.
Qed.

Lemma renameLoop_take_titles songTitles exportedFiles : ∀ i st,
  renameLoop i exportedFiles (take (i + length exportedFiles) songTitles) st
  = renameLoop i exportedFiles songTitles st.
Proof.
  induction exportedFiles as [|f fs IH]; intros i st; [done|]. simpl.
  rewrite length_take.
  destruct (decide (length songTitles ≤ i)) as [Hle|Hgt].
  - rewrite decide_True by lia. done.
  - rewrite decide_False by lia.
    rewrite lookup_take_lt by lia.
    destruct (songTitles !! i); simpl; [|done].
    replace (i + S (length fs)) with (i + 1 + length fs) by lia. apply IH.
Qed.

Lemma renameBody_log i f t st :
  ∃ line, (renameBody i f t st).2 = st.2 ++ [line].
Proof.
  unfold renameBody.
  destruct (os_Rename _ _ _) as [w [e|]]; simpl; by eexists.
Qed.

Lemma renameStep_log_length pairs : ∀ st,
  length (foldl renameStep st pairs).2 = length st.2 + length pairs.
Proof.
  induction pairs as [|p pairs IH]; intros st; simpl; [lia|].
  rewrite IH. unfold renameStep.
  destruct (renameBody_log p.1 p.2.1 p.2.2 st) as [line ->].
  rewrite length_app. simpl. lia.
Qed.

(** C7.  The rename loop visits the pairs (file [i], title [i]) for [i]
    below both counts, in order, and runs the loop body on each, whatever
    [os.Rename] answered for the pairs before: one line is logged per pair.
    Files beyond the number of titles and titles beyond the number of files
    play no part.  The titles are the non-empty lines of the setlist. *)
Theorem C7_positional_rename exportedFiles songTitles st :
  let pairs := renamePairs 0 exportedFiles songTitles in
  renameLoop 0 exportedFiles songTitles st = Some (foldl renameStep st pairs)
  ∧ length pairs = length exportedFiles `min` length songTitles
  ∧ (∀ i f t, exportedFiles !! i = Some f → songTitles !! i = Some t →
       pairs !! i = Some (i, (f, t)))
  ∧ renameLoop 0 (take (length songTitles) exportedFiles) songTitles st
    = renameLoop 0 exportedFiles songTitles st
  ∧ renameLoop 0 exportedFiles (take (length exportedFiles) songTitles) st
    = renameLoop 0 exportedFiles songTitles st
  ∧ length (foldl renameStep st pairs).2
    = length st.2 + length exportedFiles `min` length songTitles
  ∧ (∀ cfg lines,
       readSetlist (SetlistFile cfg) st.1 = Scanned lines None →
       ∃ st0,
         st0.1 = st.1 ∧
         renameFilesFromSetlist cfg exportedFiles st =
           Some ((foldl renameStep st0
                    (renamePairs 0 exportedFiles
                       (filter (λ title, title ≠ "") lines))).1,
                 (foldl renameStep st0
                    (renamePairs 0 exportedFiles
                       (filter (λ title, title ≠ "") lines))).2
                 ++ [LogRenamingComplete])).
Proof.
  intros pairs. subst pairs.
  split; [by rewrite renameLoop_fold|].
  split; [apply renamePairs_length|].
  split; [apply renamePairs_lookup|].
  split.
  { rewrite <- (renameLoop_take_files songTitles exportedFiles 0 st).
    by rewrite Nat.sub_0_r. }
  split; [apply (renameLoop_take_titles songTitles exportedFiles 0 st)|].
  split; [by rewrite renameStep_log_length, renamePairs_length|].
  intros cfg lines Hread. destruct st as [w log].
  unfold renameFilesFromSetlist. simpl in Hread. rewrite Hread.
  rewrite renameLoop_fold. simpl. by eexists (w, _).
Qed.


End Rename.

(** A file system that records the renames done, on which renaming
    [output/Song_02.mp4] fails. *)
Definition recordingRename (oldPath newPath : string)
    (done : list (string * string)) : list (string * string) * option string :=
  if decide (oldPath = "output/Song_02.mp4")
  then (done, Some "permission denied")
  else (done ++ [(oldPath, newPath)], None).

Lemma C7_witness :
  renameLoop recordingRename (λ _, "output") (λ dir name, dir +:+ "/" +:+ name)
    (λ path, path) 0
    ["output/Song_01.mp4"; "output/Song_02.mp4"; "output/Song_03.mp4";
     "output/Song_04.mp4"]
    ["Hey Jude"; "Let It Be"; "Yesterday"]
    ([], [])
  = Some ([("output/Song_01.mp4", "output/01 - Hey_Jude.mp4");
           ("output/Song_03.mp4", "output/03 - Yesterday.mp4")],
          [LogRenamed "output/Song_01.mp4" "01 - Hey_Jude.mp4";
           LogRenameError "output/Song_02.mp4" "output/02 - Let_It_Be.mp4"
             "permission denied";
           LogRenamed "output/Song_03.mp4" "03 - Yesterday.mp4"]).
Proof.
  rewrite (proj1 (C7_positional_rename recordingRename
                    (λ _ _, OpenFailed "unused") (λ _, "output")
                    (λ dir name, dir +:+ "/" +:+ name) (λ path, path)
                    _ _ _)).
  reflexivity.
Defined.


From Stdlib Require Import DecimalNat.

(** * Further properties of the code *)

(** ** The deriver: separation, monotonicity, boundaries, NaN *)

(** [a] ends no later than [b] starts. *)
Definition segBefore (a b : segment) : Prop :=
  PrimFloat.leb (end_ a) (start b) = true.

Section DeriverMore.
Import FloatOrder.

Lemma gaps_separated lo silences hi :
  PrimFloat.leb lo lo = true → chain lo silences →
  StronglySorted segBefore (gaps lo silences hi).
Proof.
  revert lo. induction silences as [|s tl IH]; intros lo Hrefl Hc; simpl.
  - repeat constructor.
  - destruct Hc as (Hlo & Hs & Htl).
    constructor; [apply IH; eauto using leb_refl_r|].
    eapply Forall_impl; [apply gaps_start_ge; eauto using leb_refl_r|].
    unfold segBefore. simpl. intros g Hg. eauto using leb_trans.
Qed.

Lemma StronglySorted_lookup_lt {A} (R : A → A → Prop) l i j a b :
  StronglySorted R l → i < j → l !! i = Some a → l !! j = Some b → R a b.
Proof.
  intros Hs. revert i j. induction Hs as [|x l Hs IH Hx]; intros i j Hij Ha Hb.
  - by rewrite lookup_nil in Ha.
  - destruct j as [|j]; [lia|]. simpl in Hb.
    destruct i as [|i]; simpl in Ha.
    + injection Ha as <-. rewrite Forall_forall in Hx.
      apply Hx. by eapply list_elem_of_lookup_2.
    + apply (IH i j); [lia|done..].
Qed.

Lemma chain_of_ordered silences :
  forallb orderedSilenceb silences = true →
  nonOverlappingb silences = true →
  chain 0 silences.
Proof.
  intros Hord Hno.
  apply forallb_Forall in Hord.
  apply chain_intro; [|done|].
  - eapply Forall_impl; [exact Hord|]. intros s Hs.
    unfold orderedSilenceb in Hs. by apply andb_true_iff in Hs as [_ ?].
  - destruct silences as [|s0 rest]; [done|].
    apply Forall_inv in Hord. unfold orderedSilenceb in Hord.
    by apply andb_true_iff in Hord as [? _].
Qed.

(** X1.  On a well-formed silence list ([0 <= start <= end] each, every end
    no later than the next start) the returned intervals do not overlap:
    each ends no later than every later one starts. *)
Theorem X1_output_non_overlapping silences totalDuration cfg out i j a b :
  forallb orderedSilenceb silences = true →
  nonOverlappingb silences = true →
  calculateNonSilentSegments silences totalDuration cfg = Some out →
  i < j → out !! i = Some a → out !! j = Some b →
  PrimFloat.leb (end_ a) (start b) = true.
Proof.
  intros Hord Hno Hout Hij Ha Hb.
  destruct silences as [|s0 rest].
  { injection Hout as <-. by rewrite lookup_nil in Ha. }
  apply (StronglySorted_lookup_lt segBefore out i j a b); [|done..].
  apply (StronglySorted_sublist _ _ (gaps 0 (s0 :: rest) totalDuration)).
  - by eapply calculate_sublist_gaps.
  - apply gaps_separated; [reflexivity|]. by apply chain_of_ordered.
Qed.

Lemma X1_witness :
  PrimFloat.leb (end_ (mkSegment 0 100)) (start (mkSegment 210 300)) = true.
Proof.
  apply (X1_output_non_overlapping
           [mkSegment 100 110; mkSegment 200 210] 300
           (set_MinSongLength 10 zeroConfig)
           [mkSegment 0 100; mkSegment 110 200; mkSegment 210 300] 0 2);
    [reflexivity|reflexivity|reflexivity|lia|reflexivity|reflexivity].
Defined.

Lemma filter_sublist_impl {A} (P Q : A → Prop)
    `{!∀ x, Decision (P x)} `{!∀ x, Decision (Q x)} (l : list A) :
  (∀ x, Q x → P x) → filter Q l `sublist_of` filter P l.
Proof.
  intros HQP. induction l as [|x l IH]; [done|].
  rewrite !filter_cons.
  destruct (decide (Q x)) as [Hq|Hq].
  - rewrite decide_True by auto. by constructor.
  - destruct (decide (P x)); [by constructor|done].
Qed.

(** X2.  Raising the minimum song length only removes intervals: with
    [MinSongLength cfg1 <= MinSongLength cfg2], what is returned under
    [cfg2] is a sublist of what is returned under [cfg1]. *)
Theorem X2_monotone_in_min_length silences totalDuration cfg1 cfg2 :
  PrimFloat.leb (MinSongLength cfg1) (MinSongLength cfg2) = true →
  ∃ out1 out2,
    calculateNonSilentSegments silences totalDuration cfg1 = Some out1
    ∧ calculateNonSilentSegments silences totalDuration cfg2 = Some out2
    ∧ out2 `sublist_of` out1.
Proof.
  intros Hle. destruct silences as [|s0 rest].
  { by exists [], []. }
  eexists _, _. split; [apply calculate_cons|]. split; [apply calculate_cons|].
  apply sublist_app; apply filter_sublist_impl.
  - unfold longEnough, geb. intros c Hc. eauto using leb_trans.
  - intros c [Hgt Hc]%trailingKept_iff. apply trailingKept_iff.
    split; [done|]. unfold geb in *. eauto using leb_trans.
Qed.

Lemma X2_witness :
  ∃ out1 out2,
    calculateNonSilentSegments [mkSegment 40 50; mkSegment 100 110] 120
      (set_MinSongLength 10 zeroConfig) = Some out1
    ∧ calculateNonSilentSegments [mkSegment 40 50; mkSegment 100 110] 120
        (set_MinSongLength 50 zeroConfig) = Some out2
    ∧ out2 `sublist_of` out1.
Proof.
  apply (X2_monotone_in_min_length [mkSegment 40 50; mkSegment 100 110] 120
           (set_MinSongLength 10 zeroConfig) (set_MinSongLength 50 zeroConfig)).
  reflexivity.
Defined.

Lemma gaps_boundaries lo silences hi g :
  g ∈ gaps lo silences hi →
  (start g = lo ∨ ∃ s, s ∈ silences ∧ start g = end_ s)
  ∧ (end_ g = hi ∨ ∃ s, s ∈ silences ∧ end_ g = start s).
Proof.
  revert lo. induction silences as [|s tl IH]; intros lo Hg; simpl in Hg.
  - apply list_elem_of_singleton in Hg as ->. simpl. auto.
  - apply elem_of_cons in Hg as [->|Hg]; simpl.
    + split; [by left|]. right. exists s. split; [apply list_elem_of_here|done].
    + destruct (IH _ Hg) as [[H1|(s1 & Hs1 & H1)] H2]; split.
      * right. exists s. split; [apply list_elem_of_here|done].
      * destruct H2 as [H2|(s2 & Hs2 & H2)]; [by left|].
        right. exists s2. split; [by apply list_elem_of_further|done].
      * right. exists s1. split; [by apply list_elem_of_further|done].
      * destruct H2 as [H2|(s2 & Hs2 & H2)]; [by left|].
        right. exists s2. split; [by apply list_elem_of_further|done].
Qed.

(** X3.  The function cuts only at detected boundaries: every returned
    interval starts at 0 or at the end of an input silence, and ends at the
    start of an input silence or at [totalDuration]. *)
Theorem X3_boundaries_from_input silences totalDuration cfg out c :
  calculateNonSilentSegments silences totalDuration cfg = Some out →
  c ∈ out →
  (start c = 0%float ∨ ∃ s, s ∈ silences ∧ start c = end_ s)
  ∧ (end_ c = totalDuration ∨ ∃ s, s ∈ silences ∧ end_ c = start s).
Proof.
  intros Hout Hc. destruct silences as [|s0 rest].
  { injection Hout as <-. by apply elem_of_nil in Hc. }
  apply (gaps_boundaries 0 (s0 :: rest) totalDuration).
  eapply elem_of_sublist; [exact Hc|]. by eapply calculate_sublist_gaps.
Qed.

Lemma X3_witness :
  (start (mkSegment 50 100) = 0%float
   ∨ ∃ s, s ∈ [mkSegment 40 50; mkSegment 100 110]
          ∧ start (mkSegment 50 100) = end_ s)
  ∧ (end_ (mkSegment 50 100) = 120%float
     ∨ ∃ s, s ∈ [mkSegment 40 50; mkSegment 100 110]
            ∧ end_ (mkSegment 50 100) = start s).
Proof.
  apply (X3_boundaries_from_input [mkSegment 40 50; mkSegment 100 110] 120
           (set_MinSongLength 50 zeroConfig) [mkSegment 50 100]).
  - reflexivity.
  - apply list_elem_of_here.
Defined.

(** A NaN is below, above and equal to nothing. *)
Lemma SFleb_nan_l x y : SFeqb x x = false → SFleb x y = false.
Proof.
  unfold SFeqb, SFleb.
  destruct x as [[]|[]| |[] m e]; simpl; try done;
    rewrite Z.compare_refl;
    change (PosDef.Pos.compare_cont Eq m m) with (Pos.compare m m);
    by rewrite Pos.compare_refl.
Qed.

Lemma SFleb_nan_r x y : SFeqb y y = false → SFleb x y = false.
Proof.
  unfold SFeqb, SFleb.
  destruct y as [[]|[]| |[] m e]; simpl; try done;
    try (rewrite Z.compare_refl;
         change (PosDef.Pos.compare_cont Eq m m) with (Pos.compare m m);
         by rewrite Pos.compare_refl).
  intros _. by destruct x as [[]|[]| |[] ? ?].
Qed.

Lemma leb_nan_l x y : PrimFloat.is_nan x = true → PrimFloat.leb x y = false.
Proof.
  unfold PrimFloat.is_nan. intros H%negb_true_iff.
  rewrite FloatAxioms.leb_spec. apply SFleb_nan_l.
  by rewrite <- FloatAxioms.eqb_spec.
Qed.

Lemma leb_nan_r x y : PrimFloat.is_nan y = true → PrimFloat.leb x y = false.
Proof.
  unfold PrimFloat.is_nan. intros H%negb_true_iff.
  rewrite FloatAxioms.leb_spec. apply SFleb_nan_r.
  by rewrite <- FloatAxioms.eqb_spec.
Qed.

Lemma filter_none {A} (P : A → Prop) `{!∀ x, Decision (P x)} (l : list A) :
  (∀ x, ¬ P x) → filter P l = [].
Proof.
  intros Hnone. induction l as [|x l IH]; [done|].
  by rewrite filter_cons_False.
Qed.

(** X4.  A [MinSongLength] that is not a number (the flag package accepts
    [-minsonglength=NaN]) fails every comparison: nothing is returned for any
    silence list, and the whole-file fallback of [main] does not apply
    either. *)
Theorem X4_nan_minimum_returns_nothing silences totalDuration cfg :
  PrimFloat.is_nan (MinSongLength cfg) = true →
  calculateNonSilentSegments silences totalDuration cfg = Some []
  ∧ mainSongSegments silences totalDuration cfg = Some [].
Proof.
  intros Hnan.
  assert (calculateNonSilentSegments silences totalDuration cfg = Some [])
    as Hcalc.
  { destruct silences as [|s0 rest]; [done|].
    rewrite calculate_cons, !filter_none; [done| |].
    - intros c [_ Hc]%trailingKept_iff. unfold geb in Hc.
      by rewrite leb_nan_l in Hc.
    - intros c Hc. unfold longEnough, geb in Hc. by rewrite leb_nan_l in Hc. }
  split; [done|].
  unfold mainSongSegments. rewrite Hcalc. simpl.
  unfold geb. rewrite leb_nan_l by done.
  by destruct (decide (length silences = 0)).
Qed.

Lemma X4_witness :
  calculateNonSilentSegments [mkSegment 100 110] 300
    (set_MinSongLength nan defaultConfig) = Some []
  ∧ mainSongSegments [mkSegment 100 110] 300
      (set_MinSongLength nan defaultConfig) = Some [].
Proof.
  apply (X4_nan_minimum_returns_nothing [mkSegment 100 110] 300
           (set_MinSongLength nan defaultConfig)).
  reflexivity.
Defined.

End DeriverMore.

(** ** The configuration merge: unusable files, the file layer, unset flags *)

(** The flag variables agree wherever the flag was given. *)
Definition flagsAgree (visited : list string) (cli cli' : cliFlags) : Prop :=
  ("input" ∈ visited → cliInput cli = cliInput cli')
  ∧ ("duration" ∈ visited → cliDuration cli = cliDuration cli')
  ∧ ("threshold" ∈ visited → cliThreshold cli = cliThreshold cli')
  ∧ ("minsonglength" ∈ visited → cliMinSongLength cli = cliMinSongLength cli')
  ∧ ("prefix" ∈ visited → cliPrefix cli = cliPrefix cli')
  ∧ ("output" ∈ visited → cliOutput cli = cliOutput cli')
  ∧ ("upload" ∈ visited → cliUpload cli = cliUpload cli')
  ∧ ("remote" ∈ visited → cliRemote cli = cliRemote cli')
  ∧ ("subfolder" ∈ visited → cliSubfolder cli = cliSubfolder cli')
  ∧ ("setlist" ∈ visited → cliSetlistFile cli = cliSetlistFile cli').

(** None of the ten settings' flags was given. *)
Definition noSettingFlag (visited : list string) : Prop :=
  ("input" ∉ visited) ∧ ("duration" ∉ visited) ∧ ("threshold" ∉ visited)
  ∧ ("minsonglength" ∉ visited) ∧ ("prefix" ∉ visited) ∧ ("output" ∉ visited)
  ∧ ("upload" ∉ visited) ∧ ("remote" ∉ visited) ∧ ("subfolder" ∉ visited)
  ∧ ("setlist" ∉ visited).

(** X5.  A config file that cannot be read or parsed counts for nothing:
    the result is the one for a missing file, whatever fields the parser
    filled before it failed; with no setting flag given it is
    [defaultConfig]. *)
Theorem X5_unusable_file_is_ignored partial cli visited :
  loadConfig FileUnreadable cli visited = loadConfig FileMissing cli visited
  ∧ loadConfig (FileInvalid partial) cli visited
    = loadConfig FileMissing cli visited
  ∧ (noSettingFlag visited →
       loadConfig (FileInvalid partial) cli visited = defaultConfig).
Proof.
  split; [reflexivity|]. split; [reflexivity|].
  intros (H1 & H2 & H3 & H4 & H5 & H6 & H7 & H8 & H9 & H10).
  unfold loadConfig. cbn [loadConfigFromFile]. cbv zeta iota beta.
  rewrite !flagSet_visited.
  rewrite (bool_decide_false _ H1), (bool_decide_false _ H2),
    (bool_decide_false _ H3), (bool_decide_false _ H4),
    (bool_decide_false _ H5), (bool_decide_false _ H6),
    (bool_decide_false _ H7), (bool_decide_false _ H8),
    (bool_decide_false _ H9), (bool_decide_false _ H10).
  by rewrite !ifThen_false.
Qed.

Lemma X5_witness :
  loadConfig (FileInvalid (set_MinSongLength 60 zeroConfig)) defaultFlags
    ["config"] = defaultConfig.
Proof.
  apply (X5_unusable_file_is_ignored (set_MinSongLength 60 zeroConfig)
           defaultFlags ["config"]).
  repeat split; intros H%list_elem_of_singleton; discriminate H.
Defined.

(** The value of a setting that the file gives and no flag sets. *)
Ltac file_wins F Hflag Hkey Htest :=
  unfold loadConfig; cbn [loadConfigFromFile]; cbv zeta iota beta;
  rewrite !flagSet_visited; rewrite (bool_decide_false _ Hflag), ifThen_false;
  peel F;
  cbn [unmarshalConfig InputFile MinSilenceDur SilenceThreshold MinSongLength
       OutputPrefix OutputDir UploadToDrive RcloneRemote DriveSubfolder
       SetlistFile];
  rewrite Hkey; cbn [from_option id]; rewrite Htest, ifThen_true; reflexivity.

(** X6.  The file layer over the defaults: a key of the config file with a
    value other than the zero of its type is the final value of its setting
    when the setting's flag is not given. *)
Theorem X6_file_value_overrides_default (j : configJSON) cli visited :
  let cfg := loadConfig (FileParsed j) cli visited in
  (∀ v, input_file j = Some v → v ≠ "" → "input" ∉ visited →
        InputFile cfg = v)
  ∧ (∀ v, min_silence_duration j = Some v → neqb v 0 = true →
          "duration" ∉ visited → MinSilenceDur cfg = v)
  ∧ (∀ v, silence_threshold j = Some v → v ≠ "" → "threshold" ∉ visited →
          SilenceThreshold cfg = v)
  ∧ (∀ v, min_song_length j = Some v → neqb v 0 = true →
          "minsonglength" ∉ visited → MinSongLength cfg = v)
  ∧ (∀ v, output_prefix j = Some v → v ≠ "" → "prefix" ∉ visited →
          OutputPrefix cfg = v)
  ∧ (∀ v, output_dir j = Some v → v ≠ "" → "output" ∉ visited →
          OutputDir cfg = v)
  ∧ (upload_to_drive j = Some true → "upload" ∉ visited →
       UploadToDrive cfg = true)
  ∧ (∀ v, rclone_remote j = Some v → v ≠ "" → "remote" ∉ visited →
          RcloneRemote cfg = v)
  ∧ (∀ v, drive_subfolder j = Some v → v ≠ "" → "subfolder" ∉ visited →
          DriveSubfolder cfg = v)
  ∧ (∀ v, setlist_file j = Some v → v ≠ "" → "setlist" ∉ visited →
          SetlistFile cfg = v).
Proof.
  intros cfg. subst cfg.
  split; [intros v Hk Hv%(bool_decide_eq_true_2 _) Hf;
          file_wins InputFile Hf Hk Hv|].
  split; [intros v Hk Hv Hf; file_wins MinSilenceDur Hf Hk Hv|].
  split; [intros v Hk Hv%(bool_decide_eq_true_2 _) Hf;
          file_wins SilenceThreshold Hf Hk Hv|].
  split; [intros v Hk Hv Hf; file_wins MinSongLength Hf Hk Hv|].
  split; [intros v Hk Hv%(bool_decide_eq_true_2 _) Hf;
          file_wins OutputPrefix Hf Hk Hv|].
  split; [intros v Hk Hv%(bool_decide_eq_true_2 _) Hf;
          file_wins OutputDir Hf Hk Hv|].
  split.
  { intros Hk Hf.
    unfold loadConfig; cbn [loadConfigFromFile]; cbv zeta iota beta.
    rewrite !flagSet_visited, (bool_decide_false _ Hf), ifThen_false.
    peel UploadToDrive. cbn [unmarshalConfig UploadToDrive].
    rewrite Hk. cbn [from_option id]. by rewrite ifThen_true. }
  split; [intros v Hk Hv%(bool_decide_eq_true_2 _) Hf;
          file_wins RcloneRemote Hf Hk Hv|].
  split; [intros v Hk Hv%(bool_decide_eq_true_2 _) Hf;
          file_wins DriveSubfolder Hf Hk Hv|].
  intros v Hk Hv%(bool_decide_eq_true_2 _) Hf.
  file_wins SetlistFile Hf Hk Hv.
Qed.

Lemma X6_witness :
  MinSongLength
    (loadConfig
       (FileParsed (mkConfigJSON (Some "file_video.mp4") None (Some "-20dB")
                      (Some 60%float) None None (Some true) None
                      (Some "FileFolder") None))
       defaultFlags ["config"]) = 60%float.
Proof.
  pose proof (X6_file_value_overrides_default
                (mkConfigJSON (Some "file_video.mp4") None (Some "-20dB")
                   (Some 60%float) None None (Some true) None
                   (Some "FileFolder") None)
                defaultFlags ["config"]) as (_ & _ & _ & Hmin & _).
  apply Hmin; [reflexivity|reflexivity|].
  intros H%list_elem_of_singleton. discriminate H.
Defined.

(** X7.  A flag that was not given has no effect, and only which flags were
    given matters: the result is the same for two command lines that give
    the same flags (in any order) and agree on the values of those. *)
Theorem X7_unset_flags_are_inert file cli cli' visited visited' :
  (∀ name, name ∈ visited ↔ name ∈ visited') →
  flagsAgree visited cli cli' →
  loadConfig file cli visited = loadConfig file cli' visited'.
Proof.
  intros Hsame (H1 & H2 & H3 & H4 & H5 & H6 & H7 & H8 & H9 & H10).
  unfold loadConfig.
  destruct (loadConfigFromFile file) as [fileConfig err].
  cbv zeta. rewrite !flagSet_visited.
  repeat (apply ifThen_congr;
          [apply bool_decide_ext, Hsame
          |intros ?%bool_decide_eq_true_1; auto
          |]).
  reflexivity.
Qed.

Lemma X7_witness :
  loadConfig (FileParsed emptyJSON)
    (mkCliFlags "config.json" "cli_video.mp4" 9 "-12dB" 200 "Song" "output"
       true "gdrive:" "SplitSongs" "")
    ["input"; "upload"]
  = loadConfig (FileParsed emptyJSON)
      (mkCliFlags "config.json" "cli_video.mp4" 2 "-30dB" 120 "Clip" "out"
         true "drive:" "Other" "set.txt")
      ["upload"; "input"; "input"].
Proof.
  apply X7_unset_flags_are_inert.
  - intros name. rewrite !elem_of_cons, !elem_of_nil. tauto.
  - unfold flagsAgree.
    repeat split; try reflexivity;
      intros H; exfalso; revert H;
      rewrite !elem_of_cons, elem_of_nil; intros [H|[H|[]]]; discriminate H.
Defined.

(** ** File names: extensions and indices *)

(** Neither a dot nor a path separator. *)
Definition plainChar (c : ascii) : bool :=
  negb ((byte c =? 46) || (byte c =? 47)).

(** The number a string of decimal digits stands for. *)
Definition decimalValue (s : string) : option nat :=
  Nat.of_uint <$> NilEmpty.uint_of_string s.

Section FileNames.

Lemma allChars_impl (P Q : ascii → bool) s :
  (∀ c, P c = true → Q c = true) →
  allChars P s = true → allChars Q s = true.
Proof.
  intros HPQ. induction s as [|c s IH]; simpl; [done|].
  intros [Hc Hs]%andb_true_iff. by rewrite (HPQ _ Hc), IH.
Qed.

Lemma isDigit_plain c : isDigit c = true → plainChar c = true.
Proof.
  unfold isDigit, plainChar. generalize (byte c) as n. intros n.
  rewrite andb_true_iff, negb_true_iff, orb_false_iff, !Nat.leb_le,
    !Nat.eqb_neq. lia.
Qed.

Lemma outputChar_plain c : outputChar c = true → plainChar c = true.
Proof.
  unfold outputChar, isLetter, isDigit, isOtherSpace, isHyphen, isUnderscore,
    plainChar.
  generalize (byte c) as n. intros n.
  rewrite negb_true_iff, orb_false_iff, !Nat.eqb_neq.
  repeat first [ rewrite andb_true_iff | rewrite orb_true_iff
               | rewrite Nat.eqb_eq | rewrite Nat.leb_le ].
  lia.
Qed.

Lemma string_of_uint_digits d :
  allChars isDigit (NilEmpty.string_of_uint d) = true.
Proof. induction d; simpl; auto. Qed.

Lemma Sprintf_02d_digits n : allChars isDigit (Sprintf_02d n) = true.
Proof.
  unfold Sprintf_02d.
  destruct (_ <? 2); [|apply string_of_uint_digits].
  rewrite string_app_cons, string_app_nil_l. simpl.
  apply string_of_uint_digits.
Qed.

(** What is printed for an index reads back as that index. *)
Lemma Sprintf_02d_value n : decimalValue (Sprintf_02d n) = Some n.
Proof.
  unfold Sprintf_02d, decimalValue.
  destruct (_ <? 2).
  - rewrite string_app_cons, string_app_nil_l. simpl.
    rewrite NilEmpty.usu. simpl. f_equal. apply Unsigned.of_to.
  - rewrite NilEmpty.usu. simpl. f_equal. apply Unsigned.of_to.
Qed.

Lemma Sprintf_02d_inj n m : Sprintf_02d n = Sprintf_02d m → n = m.
Proof.
  intros H. pose proof (Sprintf_02d_value n) as Hn.
  rewrite H, Sprintf_02d_value in Hn. by injection Hn.
Qed.

(** Digits followed by something else: the digits are determined. *)
Lemma digits_then_other c ds1 : ∀ ds2 r1 r2,
  isDigit c = false →
  allChars isDigit ds1 = true → allChars isDigit ds2 = true →
  ds1 +:+ String c r1 = ds2 +:+ String c r2 → ds1 = ds2.
Proof.
  induction ds1 as [|c1 ds1 IH]; intros [|c2 ds2] r1 r2 Hc H1 H2 Heq;
    rewrite ?string_app_cons, ?string_app_nil_l in Heq.
  - done.
  - injection Heq as <- _. simpl in H2. by rewrite Hc in H2.
  - injection Heq as -> _. simpl in H1. by rewrite Hc in H1.
  - injection Heq as -> Heq. f_equal.
    simpl in H1, H2.
    apply andb_true_iff in H1 as [_ H1]. apply andb_true_iff in H2 as [_ H2].
    by eapply IH.
Qed.

Lemma extScan_plain s : allChars plainChar s = true → extScan s = None.
Proof.
  induction s as [|c s IH]; simpl; [done|].
  intros [Hc Hs]%andb_true_iff. rewrite (IH Hs).
  unfold plainChar in Hc.
  apply negb_true_iff, orb_false_iff in Hc as [-> ->]. done.
Qed.

Lemma extScan_app_none x y : extScan x = None → extScan (x +:+ y) = extScan y.
Proof.
  induction x as [|c x IH]; [done|].
  rewrite string_app_cons. simpl.
  destruct (extScan x) as [e|]; [done|]. rewrite IH by done.
  destruct (byte c =? 46); [done|]. destruct (byte c =? 47); [done|].
  intros _. by destruct (extScan y).
Qed.

Lemma extScan_fixed p e : extScan p = Some e → e = "" ∨ extScan e = Some e.
Proof.
  induction p as [|c p IH]; simpl; [done|].
  destruct (extScan p) as [e'|] eqn:Hp.
  - intros [= <-]. by apply IH.
  - destruct (byte c =? 46) eqn:Hdot.
    + intros [= <-]. right. simpl. by rewrite Hp, Hdot.
    + destruct (byte c =? 47); [|done]. intros [= <-]. by left.
Qed.

Lemma extScan_app_some x y e : extScan y = Some e → extScan (x +:+ y) = Some e.
Proof.
  intros Hy. induction x as [|c x IH]; [done|].
  rewrite string_app_cons. simpl. by rewrite IH.
Qed.

(** An extension is empty or starts with a dot. *)
Lemma filepath_Ext_shape path :
  filepath_Ext path = "" ∨ ∃ r, filepath_Ext path = String "." r.
Proof.
  unfold filepath_Ext. induction path as [|c p IH]; simpl; [by left|].
  destruct (extScan p) as [e|]; [done|].
  destruct (byte c =? 46) eqn:Hdot.
  - right. exists p. simpl. f_equal.
    apply Nat.eqb_eq in Hdot. unfold byte in Hdot.
    by rewrite <- (ascii_nat_embedding c), Hdot.
  - left. by destruct (byte c =? 47).
Qed.

(** The extension of an extension is itself. *)
Lemma filepath_Ext_idempotent path :
  filepath_Ext (filepath_Ext path) = filepath_Ext path.
Proof.
  unfold filepath_Ext.
  destruct (extScan path) as [e|] eqn:Hp; simpl; [|done].
  destruct (extScan_fixed _ _ Hp) as [->|He]; [done|]. by rewrite He.
Qed.

Lemma filepath_Ext_app_plain pre path :
  allChars plainChar pre = true →
  filepath_Ext (pre +:+ filepath_Ext path) = filepath_Ext path.
Proof.
  intros Hpre. unfold filepath_Ext at 1.
  rewrite extScan_app_none by by apply extScan_plain.
  apply filepath_Ext_idempotent.
Qed.

Lemma sanitizeFilename_plain title :
  allChars plainChar (sanitizeFilename title) = true.
Proof.
  eapply allChars_impl; [apply outputChar_plain|].
  apply sanitizeFilename_chars.
Qed.

Lemma newFileNameOf_Ext i title oldFilePath :
  filepath_Ext (newFileNameOf i title oldFilePath) = filepath_Ext oldFilePath.
Proof.
  unfold newFileNameOf. cbv zeta.
  rewrite <- !string_app_assoc. apply filepath_Ext_app_plain.
  rewrite !allChars_app, sanitizeFilename_plain, andb_true_r.
  rewrite (allChars_impl _ _ _ isDigit_plain (Sprintf_02d_digits _)). done.
Qed.

(** X8.  Renaming keeps the extension: the new file name has the extension
    of the old path, because neither the index nor a sanitized title holds a
    dot or a path separator. *)
Theorem X8_rename_keeps_extension i title oldFilePath :
  filepath_Ext (newFileNameOf i title oldFilePath) = filepath_Ext oldFilePath
  ∧ allChars plainChar (sanitizeFilename title) = true.
Proof. split; [apply newFileNameOf_Ext | apply sanitizeFilename_plain]. Qed.

(** X9.  The index printed in a name reads back as [i + 1], so the names
    made for two different positions differ, whatever the titles and the
    old paths. *)
Theorem X9_names_differ_by_index i j title title' oldFilePath oldFilePath' :
  i ≠ j →
  decimalValue (Sprintf_02d (i + 1)) = Some (i + 1)
  ∧ newFileNameOf i title oldFilePath ≠ newFileNameOf j title' oldFilePath'.
Proof.
  intros Hij. split; [apply Sprintf_02d_value|].
  unfold newFileNameOf. cbv zeta. intros Heq.
  change (" - " +:+ ?x) with (String " " ("- " +:+ x)) in Heq.
  apply digits_then_other in Heq; [|done|apply Sprintf_02d_digits..].
  apply Sprintf_02d_inj in Heq. lia.
Qed.

Lemma X9_witness :
  newFileNameOf 0 "Yesterday" "output/Song_01.mp4"
  ≠ newFileNameOf 10 "Yesterday" "output/Song_01.mp4".
Proof.
  apply (X9_names_differ_by_index 0 10 "Yesterday" "Yesterday"
           "output/Song_01.mp4" "output/Song_01.mp4").
  lia.
Defined.

End FileNames.

(** ** The rename stage as a whole *)

Section RenameStage.
Context {World error : Type}.
Variable os_Rename : string → string → World → World * option error.
Variable readSetlist : string → World → setlistRead error.
Variable filepath_Dir : string → string.
Variable filepath_Join : string → string → string.
Variable filepath_Base : string → string.

(** The setlist gives no title: it cannot be opened, the scanner ends with
    an error, or every line is empty. *)
Definition noTitles (r : setlistRead error) : Prop :=
  match r with
  | OpenFailed _ => True
  | Scanned lines scanErr =>
      is_Some scanErr ∨ filter (λ title : string, title ≠ "") lines = []
  end.

(** X10.  [renameFilesFromSetlist] always returns, and it leaves the file
    system as it found it when the setlist cannot be opened, when reading it
    ends with an error (even after titles were read), when it holds no
    non-empty line, or when no file was exported. *)
Theorem X10_rename_stage_skips cfg exportedFiles w log :
  ∃ st',
    renameFilesFromSetlist os_Rename readSetlist filepath_Dir filepath_Join
      filepath_Base cfg exportedFiles (w, log) = Some st'
    ∧ (noTitles (readSetlist (SetlistFile cfg) w) ∨ exportedFiles = [] →
       st'.1 = w).
Proof.
  unfold renameFilesFromSetlist, noTitles.
  destruct (readSetlist (SetlistFile cfg) w) as [e|lines [e|]].
  - eexists. split; [done|]. done.
  - eexists. split; [done|]. done.
  - rewrite renameLoop_fold. rewrite drop_0.
    set (songTitles := filter (λ title : string, title ≠ "") lines).
    assert (songTitles = [] ∨ exportedFiles = [] →
            renamePairs 0 exportedFiles songTitles = []) as Hnil.
    { unfold renamePairs. intros [-> | ->]; [|done].
      by rewrite zip_with_nil_r, zip_with_nil_r. }
    eexists. split; [done|].
    intros [[[? [=]]|H]|H]; cbn [fst mbind option_bind]; by rewrite Hnil by auto.
Qed.

End RenameStage.

Lemma X10_witness :
  ∃ st',
    renameFilesFromSetlist recordingRename
      (λ _ _, Scanned ["Hey Jude"; "Let It Be"] (Some "read error"))
      (λ _, "output") (λ dir name, dir +:+ "/" +:+ name) (λ path, path)
      (set_SetlistFile "setlist.txt" defaultConfig)
      ["output/Song_01.mp4"] ([], []) = Some st'
    ∧ st'.1 = [].
Proof.
  destruct (X10_rename_stage_skips recordingRename
              (λ _ _, Scanned ["Hey Jude"; "Let It Be"] (Some "read error"))
              (λ _, "output") (λ dir name, dir +:+ "/" +:+ name) (λ path, path)
              (set_SetlistFile "setlist.txt" defaultConfig)
              ["output/Song_01.mp4"] [] [])
    as (st' & Hst & Hw).
  exists st'. split; [exact Hst|].
  apply Hw. left. left. by eexists.
Defined.

(** ** Exporting the segments *)

(** [fmt.Sprintf("%s/%s_%02d%s", cfg.OutputDir, cfg.OutputPrefix, i+1, fileExt)] *)
Definition outputFilenameOf (cfg : Config) (fileExt : string) (i : nat) : string :=
  OutputDir cfg +:+ "/" +:+ OutputPrefix cfg +:+ "_" +:+ Sprintf_02d (i + 1)
  +:+ fileExt.

(** The lines [splitVideoIntoSegments] prints. *)
Inductive exportLog (error : Type) :=
  | LogCreatedDir (outputDir : string)
  | LogExporting (index : nat) (outputFilename : string) (from duration : float)
  | LogSplitError (index : nat) (err : error) (output : string).
Arguments LogCreatedDir {error}.
Arguments LogExporting {error}.
Arguments LogSplitError {error}.

Lemma outputFilenameOf_inj cfg path i j :
  outputFilenameOf cfg (filepath_Ext path) i
  = outputFilenameOf cfg (filepath_Ext path) j → i = j.
Proof.
  unfold outputFilenameOf. intros H.
  do 4 apply (inj (String.app _)) in H.
  assert (Sprintf_02d (i + 1) = Sprintf_02d (j + 1)) as Heq.
  { destruct (filepath_Ext_shape path) as [E | [r E]]; rewrite E in H.
    - by rewrite !string_app_nil_r in H.
    - by eapply (digits_then_other "."); [|apply Sprintf_02d_digits..|]. }
  apply Sprintf_02d_inj in Heq. lia.
Qed.

Section SplitStage.
Context {World error : Type}.

(** [os.Stat] answering "does not exist", [os.Mkdir], running [ffmpeg] with
    [CombinedOutput], and [fmt.Sprintf("%.3f", x)]. *)
Variable os_StatNotExist : string → World → bool.
Variable os_Mkdir : string → World → World.
Variable ffmpeg_CombinedOutput :
  list string → World → World * (string * option error).
Variable Sprintf_3f : float → string.

Definition exportState : Type := World * list (exportLog error).

(** The body of [for i, seg := range segments]. *)
Definition exportBody (cfg : Config) (fileExt : string) (i : nat)
    (seg : segment) (st : exportState) (exportedFiles : list string)
    : exportState * list string :=
  let outputFilename := outputFilenameOf cfg fileExt i in
  let duration := (end_ seg - start seg)%float in
  let log := st.2 ++ [LogExporting (i + 1) outputFilename (start seg) duration] in
  let args := ["-i"; InputFile cfg;
               "-ss"; Sprintf_3f (start seg);
               "-t"; Sprintf_3f duration;
               "-c:v"; "copy";
               "-c:a"; "copy";
               outputFilename] in
  let '(w, (output, err)) := ffmpeg_CombinedOutput args st.1 in
  match err with
  | Some e => ((w, log ++ [LogSplitError (i + 1) e output]), exportedFiles)
  | None => ((w, log), exportedFiles ++ [outputFilename])
  end.

Fixpoint exportLoop (cfg : Config) (fileExt : string) (i : nat)
    (segments : list segment) (st : exportState) (exportedFiles : list string)
    : exportState * list string :=
  match segments with
  | [] => (st, exportedFiles)
  | seg :: rest =>
      let '(st, exportedFiles) := exportBody cfg fileExt i seg st exportedFiles in
      exportLoop cfg fileExt (i + 1) rest st exportedFiles
  end.

(** [func splitVideoIntoSegments(cfg Config, segments []segment) []string] *)
Definition splitVideoIntoSegments (cfg : Config) (segments : list segment)
    (st : exportState) : exportState * list string :=
  let st :=
    if os_StatNotExist (OutputDir cfg) st.1
    then (os_Mkdir (OutputDir cfg) st.1, st.2 ++ [LogCreatedDir (OutputDir cfg)])
    else st in
  let fileExt := filepath_Ext (InputFile cfg) in
  let exportedFiles : list string := [] in
  exportLoop cfg fileExt 0 segments st exportedFiles.

(** The names planned for [n] segments from position [i] on. *)
Definition plannedNames (cfg : Config) (fileExt : string) (i n : nat)
    : list string :=
  outputFilenameOf cfg fileExt <$> seq i n.

(** The arguments of the [ffmpeg] run that exports segment [i]. *)
Definition ffmpegArgs (cfg : Config) (fileExt : string) (i : nat)
    (seg : segment) : list string :=
  ["-i"; InputFile cfg;
   "-ss"; Sprintf_3f (start seg);
   "-t"; Sprintf_3f (end_ seg - start seg)%float;
   "-c:v"; "copy";
   "-c:a"; "copy";
   outputFilenameOf cfg fileExt i].

(** One [ffmpeg] run per segment, in order, each started in the world the
    run before it left, from position [i] and world [w] on: [true] for a run
    that returned no error. *)
Fixpoint ffmpegOutcomes (cfg : Config) (fileExt : string) (i : nat)
    (segments : list segment) (w : World) : list bool :=
  match segments with
  | [] => []
  | seg :: rest =>
      let r := ffmpeg_CombinedOutput (ffmpegArgs cfg fileExt i seg) w in
      match r.2.2 with None => true | Some _ => false end
      :: ffmpegOutcomes cfg fileExt (i + 1) rest r.1
  end.

(** The names whose run succeeded, in order. *)
Definition keptNames (names : list string) (outcomes : list bool)
    : list string :=
  fst <$> filter (λ p, p.2 = true) (zip names outcomes).

(** The failed runs among the first [i]. *)
Definition failuresBefore (i : nat) (outcomes : list bool) : nat :=
  length (filter (λ b, b = false) (take i outcomes)).

Lemma exportBody_files cfg fileExt i seg st acc :
  (exportBody cfg fileExt i seg st acc).2 = acc
  ∨ (exportBody cfg fileExt i seg st acc).2
    = acc ++ [outputFilenameOf cfg fileExt i].
Proof.
  unfold exportBody.
  destruct (ffmpeg_CombinedOutput _ _) as [w [output [e|]]]; simpl; auto.
Qed.

Lemma exportLoop_sublist cfg fileExt segments : ∀ i st acc,
  ∃ more,
    (exportLoop cfg fileExt i segments st acc).2 = acc ++ more
    ∧ more `sublist_of` plannedNames cfg fileExt i (length segments).
Proof.
  induction segments as [|seg rest IH]; intros i st acc; simpl.
  - exists []. by rewrite app_nil_r.
  - destruct (exportBody cfg fileExt i seg st acc) as [st' acc'] eqn:Hbody.
    destruct (IH (i + 1) st' acc') as (more & -> & Hsub).
    replace (i + 1) with (S i) in Hsub by lia.
    pose proof (exportBody_files cfg fileExt i seg st acc) as Hfiles.
    rewrite Hbody in Hfiles. simpl in Hfiles. destruct Hfiles as [-> | ->].
    + exists more. split; [done|]. by apply sublist_cons.
    + exists (outputFilenameOf cfg fileExt i :: more).
      split; [by rewrite <- app_assoc|]. by apply sublist_skip.
Qed.

Lemma exportLoop_all_succeed cfg fileExt segments :
  (∀ args w, (ffmpeg_CombinedOutput args w).2.2 = None) →
  ∀ i st acc,
    (exportLoop cfg fileExt i segments st acc).2
    = acc ++ plannedNames cfg fileExt i (length segments).
Proof.
  intros Hok. induction segments as [|seg rest IH]; intros i st acc; simpl.
  - by rewrite app_nil_r.
  - unfold exportBody. cbv zeta.
    match goal with |- context [ffmpeg_CombinedOutput ?a ?w] =>
      pose proof (Hok a w) as H; destruct (ffmpeg_CombinedOutput a w)
        as [w' [output err]] end.
    simpl in H. subst err. rewrite IH, <- app_assoc.
    by replace (i + 1) with (S i) by lia.
Qed.

Lemma exportLoop_all_fail cfg fileExt segments :
  (∀ args w, is_Some (ffmpeg_CombinedOutput args w).2.2) →
  ∀ i st acc, (exportLoop cfg fileExt i segments st acc).2 = acc.
Proof.
  intros Hfail. induction segments as [|seg rest IH]; intros i st acc; simpl.
  - done.
  - unfold exportBody. cbv zeta.
    match goal with |- context [ffmpeg_CombinedOutput ?a ?w] =>
      pose proof (Hfail a w) as [e H]; destruct (ffmpeg_CombinedOutput a w)
        as [w' [output err]] end.
    simpl in H. subst err. by rewrite IH.
Qed.

(** What [splitVideoIntoSegments] returns is a sublist of the planned names. *)
Lemma splitVideo_sublist cfg segments st :
  (splitVideoIntoSegments cfg segments st).2
  `sublist_of` plannedNames cfg (filepath_Ext (InputFile cfg)) 0 (length segments).
Proof.
  unfold splitVideoIntoSegments. cbv zeta.
  match goal with
  | |- context [exportLoop cfg ?e 0 segments ?s []] =>
      destruct (exportLoop_sublist cfg e segments 0 s []) as (more & -> & Hsub)
  end.
  done.
Qed.

Lemma keptNames_cons_true name names outcomes :
  keptNames (name :: names) (true :: outcomes)
  = name :: keptNames names outcomes.
Proof.
  unfold keptNames.
  change (zip (name :: names) (true :: outcomes))
    with ((name, true) :: zip names outcomes).
  by rewrite filter_cons_True.
Qed.

Lemma keptNames_cons_false name names outcomes :
  keptNames (name :: names) (false :: outcomes) = keptNames names outcomes.
Proof.
  unfold keptNames.
  change (zip (name :: names) (false :: outcomes))
    with ((name, false) :: zip names outcomes).
  by rewrite filter_cons_False.
Qed.

Lemma ffmpegOutcomes_length cfg fileExt segments : ∀ i w,
  length (ffmpegOutcomes cfg fileExt i segments w) = length segments.
Proof.
  induction segments as [|seg rest IH]; intros i w; simpl; [done|].
  by rewrite IH.
Qed.

Lemma plannedNames_S cfg fileExt i n :
  plannedNames cfg fileExt i (S n)
  = outputFilenameOf cfg fileExt i :: plannedNames cfg fileExt (i + 1) n.
Proof. unfold plannedNames. simpl. by replace (i + 1) with (S i) by lia. Qed.

(** The loop returns the names of the runs that succeeded, each run being
    the one of its own segment. *)
Lemma exportLoop_exact cfg fileExt segments : ∀ i st acc,
  (exportLoop cfg fileExt i segments st acc).2
  = acc ++ keptNames (plannedNames cfg fileExt i (length segments))
             (ffmpegOutcomes cfg fileExt i segments st.1).
Proof.
  induction segments as [|seg rest IH]; intros i st acc; simpl.
  - by rewrite app_nil_r.
  - unfold exportBody, ffmpegArgs. cbv zeta.
    destruct (ffmpeg_CombinedOutput _ st.1) as [w [output [e|]]]; simpl.
    + by rewrite IH, plannedNames_S, keptNames_cons_false.
    + by rewrite IH, plannedNames_S, keptNames_cons_true, <- app_assoc.
Qed.

Lemma splitVideo_exact cfg segments st :
  (splitVideoIntoSegments cfg segments st).2
  = keptNames
      (plannedNames cfg (filepath_Ext (InputFile cfg)) 0 (length segments))
      (ffmpegOutcomes cfg (filepath_Ext (InputFile cfg)) 0 segments
         (if os_StatNotExist (OutputDir cfg) st.1
          then os_Mkdir (OutputDir cfg) st.1 else st.1)).
Proof.
  unfold splitVideoIntoSegments. cbv zeta.
  rewrite exportLoop_exact. simpl.
  by destruct (os_StatNotExist _ _).
Qed.

Lemma elem_of_keptNames names outcomes x :
  x ∈ keptNames names outcomes
  ↔ ∃ j, names !! j = Some x ∧ outcomes !! j = Some true.
Proof.
  unfold keptNames. rewrite list_elem_of_fmap. split.
  - intros ([y b] & -> & [Hb Hin]%list_elem_of_filter).
    simpl in Hb. subst b.
    apply list_elem_of_lookup in Hin as [j Hj].
    apply lookup_zip_with_Some in Hj as (y' & b' & [= <- <-] & Hy & Hb).
    by exists j.
  - intros (j & Hx & Hb). exists (x, true). split; [done|].
    apply list_elem_of_filter. split; [done|].
    apply list_elem_of_lookup. exists j.
    apply lookup_zip_with_Some. by exists x, true.
Qed.

Lemma failuresBefore_S_true i outcomes :
  failuresBefore (S i) (true :: outcomes) = failuresBefore i outcomes.
Proof.
  unfold failuresBefore.
  change (take (S i) (true :: outcomes)) with (true :: take i outcomes).
  by rewrite filter_cons_False.
Qed.

Lemma failuresBefore_S_false i outcomes :
  failuresBefore (S i) (false :: outcomes) = S (failuresBefore i outcomes).
Proof.
  unfold failuresBefore.
  change (take (S i) (false :: outcomes)) with (false :: take i outcomes).
  by rewrite filter_cons_True.
Qed.

(** The position of a kept name is its index less the failed runs before
    it. *)
Lemma keptNames_lookup names : ∀ outcomes k x,
  keptNames names outcomes !! k = Some x →
  ∃ i, names !! i = Some x ∧ outcomes !! i = Some true
       ∧ k + failuresBefore i outcomes = i.
Proof.
  induction names as [|name names IH]; intros outcomes k x Hk.
  { unfold keptNames in Hk. by simpl in Hk. }
  destruct outcomes as [|[] outcomes].
  { unfold keptNames in Hk. by simpl in Hk. }
  - rewrite keptNames_cons_true in Hk. destruct k as [|k]; simpl in Hk.
    + injection Hk as <-. by exists 0.
    + destruct (IH _ _ _ Hk) as (i & Hn & Ho & Hi).
      exists (S i). split; [done|]. split; [done|].
      rewrite failuresBefore_S_true. lia.
  - rewrite keptNames_cons_false in Hk.
    destruct (IH _ _ _ Hk) as (i & Hn & Ho & Hi).
    exists (S i). split; [done|]. split; [done|].
    rewrite failuresBefore_S_false. lia.
Qed.

Lemma failuresBefore_pos i outcomes :
  0 < failuresBefore i outcomes
  ↔ ∃ j, j < i ∧ outcomes !! j = Some false.
Proof.
  unfold failuresBefore. split.
  - intros Hpos.
    destruct (filter (λ b, b = false) (take i outcomes)) as [|b l] eqn:E.
    { simpl in Hpos. lia. }
    assert (b ∈ filter (λ b, b = false) (take i outcomes)) as Hb.
    { rewrite E. apply list_elem_of_here. }
    apply list_elem_of_filter in Hb as [-> Hin].
    apply list_elem_of_lookup in Hin as [j Hj].
    apply lookup_take_Some in Hj as [Hj Hlt]. by exists j.
  - intros (j & Hlt & Hj).
    assert (false ∈ filter (λ b, b = false) (take i outcomes)) as Hin.
    { apply list_elem_of_filter. split; [done|].
      apply list_elem_of_lookup. exists j. by rewrite lookup_take_lt. }
    destruct (filter _ _); [by apply elem_of_nil in Hin | simpl; lia].
Qed.

(** X11.  The exported list is exactly the names of the runs that
    succeeded, in order, where the run of segment [i] writes the name with
    index [i + 1] whether or not earlier runs failed: that name is returned
    if and only if that run returned no error.  So the list is a sublist of
    the planned names with at most as many files as segments; when every
    [ffmpeg] run succeeds all planned names are returned, when every run
    fails none. *)
Theorem X11_exported_files cfg segments st :
  let fileExt := filepath_Ext (InputFile cfg) in
  let exportedFiles := (splitVideoIntoSegments cfg segments st).2 in
  let planned := plannedNames cfg fileExt 0 (length segments) in
  let w0 := if os_StatNotExist (OutputDir cfg) st.1
            then os_Mkdir (OutputDir cfg) st.1 else st.1 in
  let outcomes := ffmpegOutcomes cfg fileExt 0 segments w0 in
  exportedFiles = keptNames planned outcomes
  ∧ length outcomes = length segments
  ∧ (∀ i, outputFilenameOf cfg fileExt i ∈ exportedFiles
          ↔ outcomes !! i = Some true)
  ∧ exportedFiles `sublist_of` planned
  ∧ length exportedFiles ≤ length segments
  ∧ (∀ i, i < length segments →
          planned !! i = Some (outputFilenameOf cfg fileExt i))
  ∧ ((∀ args w, (ffmpeg_CombinedOutput args w).2.2 = None) →
       exportedFiles = planned)
  ∧ ((∀ args w, is_Some (ffmpeg_CombinedOutput args w).2.2) →
       exportedFiles = []).
Proof.
  intros fileExt exportedFiles planned w0 outcomes.
  assert (exportedFiles = keptNames planned outcomes) as Hexact
    by apply splitVideo_exact.
  assert (∀ i, i < length segments →
            planned !! i = Some (outputFilenameOf cfg fileExt i)) as Hplanned.
  { intros i Hi. subst planned. unfold plannedNames.
    by rewrite list_lookup_fmap, lookup_seq_lt. }
  pose proof (ffmpegOutcomes_length cfg fileExt segments 0 w0) as Hlen.
  fold outcomes in Hlen.
  split; [done|]. split; [done|].
  split.
  { intros i. rewrite Hexact, elem_of_keptNames. split.
    - intros (j & Hj & Hb).
      assert (j < length segments) as Hlt.
      { rewrite <- Hlen. by eapply lookup_lt_Some. }
      rewrite (Hplanned j Hlt) in Hj. injection Hj as Hj.
      apply outputFilenameOf_inj in Hj. by subst j.
    - intros Hb. exists i. split; [|done].
      apply Hplanned. rewrite <- Hlen. by eapply lookup_lt_Some. }
  pose proof (splitVideo_sublist cfg segments st) as Hsub.
  split; [done|].
  split.
  { apply sublist_length in Hsub.
    unfold plannedNames in Hsub. by rewrite length_fmap, length_seq in Hsub. }
  split; [done|].
  subst exportedFiles. unfold splitVideoIntoSegments. cbv zeta.
  fold fileExt.
  split.
  - intros Hok. by rewrite exportLoop_all_succeed.
  - intros Hfail. by rewrite exportLoop_all_fail.
Qed.

(** X12.  The [k]-th exported file is the file of a segment [i] whose run
    succeeded, and [k] is [i] less the number of failed runs before it: the
    index is at least the position, and larger exactly when an earlier
    export failed.  The rename stage pairs titles with positions in this
    list. *)
Theorem X12_exported_position cfg segments st k f :
  let fileExt := filepath_Ext (InputFile cfg) in
  let w0 := if os_StatNotExist (OutputDir cfg) st.1
            then os_Mkdir (OutputDir cfg) st.1 else st.1 in
  let outcomes := ffmpegOutcomes cfg fileExt 0 segments w0 in
  (splitVideoIntoSegments cfg segments st).2 !! k = Some f →
  ∃ i, i < length segments
       ∧ f = outputFilenameOf cfg fileExt i
       ∧ outcomes !! i = Some true
       ∧ k + failuresBefore i outcomes = i
       ∧ (k < i ↔ ∃ j, j < i ∧ outcomes !! j = Some false).
Proof.
  intros fileExt w0 outcomes Hk.
  rewrite splitVideo_exact in Hk.
  apply keptNames_lookup in Hk as (i & Hn & Ho & Hi).
  fold fileExt w0 outcomes in Ho, Hi.
  unfold plannedNames in Hn. rewrite list_lookup_fmap in Hn.
  destruct (seq 0 (length segments) !! i) as [i'|] eqn:Hseq; [|done].
  apply lookup_seq in Hseq as [-> Hlt]. simpl in Hn. injection Hn as <-.
  exists i. split; [done|]. split; [done|]. split; [done|]. split; [done|].
  rewrite <- failuresBefore_pos. lia.
Qed.

End SplitStage.

Section ExportNames.

Lemma plannedNames_NoDup cfg path i n :
  NoDup (plannedNames cfg (filepath_Ext path) i n).
Proof.
  unfold plannedNames. apply NoDup_fmap_2_strong; [|apply NoDup_seq].
  intros a b _ _ H. by apply outputFilenameOf_inj in H.
Qed.

End ExportNames.

(** X13.  No two exported files have the same name, whatever the output
    directory, the prefix and the input file are: the two-digit index
    separates them. *)
Theorem X13_exported_names_distinct {World error : Type}
    (os_StatNotExist : string → World → bool)
    (os_Mkdir : string → World → World)
    (ffmpeg_CombinedOutput : list string → World → World * (string * option error))
    (Sprintf_3f : float → string) cfg segments st :
  NoDup (splitVideoIntoSegments os_StatNotExist os_Mkdir ffmpeg_CombinedOutput
           Sprintf_3f cfg segments st).2.
Proof.
  eapply sublist_NoDup; [|apply splitVideo_sublist].
  apply plannedNames_NoDup.
Qed.

(** X14.  When the input file has an extension, every exported file has it,
    and so has the file after renaming from the setlist. *)
Theorem X14_extension_of_input cfg i k title :
  filepath_Ext (InputFile cfg) ≠ "" →
  let exported := outputFilenameOf cfg (filepath_Ext (InputFile cfg)) i in
  filepath_Ext exported = filepath_Ext (InputFile cfg)
  ∧ filepath_Ext (newFileNameOf k title exported) = filepath_Ext (InputFile cfg).
Proof.
  intros Hext exported.
  assert (filepath_Ext exported = filepath_Ext (InputFile cfg)) as Hexp.
  { subst exported. unfold outputFilenameOf.
    rewrite <- !string_app_assoc.
    unfold filepath_Ext at 1.
    erewrite extScan_app_some; [done|].
    unfold filepath_Ext in *.
    destruct (extScan (InputFile cfg)) as [e|] eqn:He; [|done]. simpl in *.
    by destruct (extScan_fixed _ _ He). }
  split; [done|].
  by rewrite newFileNameOf_Ext.
Qed.

Lemma X14_witness :
  filepath_Ext (outputFilenameOf defaultConfig
                  (filepath_Ext (InputFile defaultConfig)) 0) = ".mp4"
  ∧ filepath_Ext
      (newFileNameOf 0 "Hey Jude"
         (outputFilenameOf defaultConfig
            (filepath_Ext (InputFile defaultConfig)) 0)) = ".mp4".
Proof.
  apply (X14_extension_of_input defaultConfig 0 0 "Hey Jude"). done.
Defined.

(** An [ffmpeg] whose run for [output/Song_02.mp4] fails. *)
Definition failSecond (args : list string) (w : unit)
    : unit * (string * option string) :=
  if decide (last args = Some "output/Song_02.mp4")
  then (w, ("Conversion failed!", Some "exit status 1"))
  else (w, ("", None)).

Lemma X11_witness :
  (splitVideoIntoSegments (World := unit) (error := string)
     (λ _ _, false) (λ _ w, w) (λ _ w, (w, ("", None))) (λ _, "0.000")
     defaultConfig [mkSegment 0 100; mkSegment 110 200] (tt, [])).2
  = ["output/Song_01.mp4"; "output/Song_02.mp4"]
  ∧ (splitVideoIntoSegments (World := unit) (error := string)
       (λ _ _, false) (λ _ w, w) failSecond (λ _, "0.000")
       defaultConfig
       [mkSegment 0 100; mkSegment 110 200; mkSegment 210 300] (tt, [])).2
    = ["output/Song_01.mp4"; "output/Song_03.mp4"].
Proof.
  split.
  - pose proof (X11_exported_files (World := unit) (error := string)
                  (λ _ _, false) (λ _ w, w) (λ _ w, (w, ("", None)))
                  (λ _, "0.000") defaultConfig
                  [mkSegment 0 100; mkSegment 110 200] (tt, []))
      as (_ & _ & _ & _ & _ & _ & Hall & _).
    by rewrite Hall.
  - pose proof (X11_exported_files (World := unit) (error := string)
                  (λ _ _, false) (λ _ w, w) failSecond
                  (λ _, "0.000") defaultConfig
                  [mkSegment 0 100; mkSegment 110 200; mkSegment 210 300]
                  (tt, []))
      as (Hexact & _).
    by rewrite Hexact.
Defined.

Lemma X12_witness :
  ∃ i, i < 3
       ∧ "output/Song_03.mp4"
         = outputFilenameOf defaultConfig
             (filepath_Ext (InputFile defaultConfig)) i
       ∧ [true; false; true] !! i = Some true
       ∧ 1 + failuresBefore i [true; false; true] = i
       ∧ (1 < i ↔ ∃ j, j < i ∧ [true; false; true] !! j = Some false).
Proof.
  apply (X12_exported_position (World := unit) (error := string)
           (λ _ _, false) (λ _ w, w) failSecond (λ _, "0.000")
           defaultConfig
           [mkSegment 0 100; mkSegment 110 200; mkSegment 210 300] (tt, [])
           1 "output/Song_03.mp4").
  reflexivity.
Defined.

(** ** Detecting the silences *)

Section Detect.
Context {World error : Type}.

(** Running a command with its standard error captured ([cmd.Run]), the
    regexp search, [strconv.ParseFloat] (its error is dropped by the code)
    and [fmt.Sprintf("silencedetect=noise=%s:d=%.1f", ...)]. *)
Variable exec_Run : string → list string → World → World * (string * option error).
Variable regexp_FindAllStringSubmatch : string → string → list (list string).
Variable strconv_ParseFloat : string → float.
Variable Sprintf_silenceFilter : string → float → string.

(** [func runFFmpeg(args ...string) (string, error)] *)
Definition runFFmpeg (args : list string) (w : World)
    : World * (string * option error) :=
  exec_Run "ffmpeg" args w.

(** The loop [for i := 0; i < len(startMatches) && i < len(endMatches); i++]:
    [fuel] bounds the iterations left, a submatch without group 1 is a
    panic ([None]). *)
Fixpoint pairLoop (fuel i : nat) (startMatches endMatches : list (list string))
    (silences : list segment) : option (list segment) :=
  match fuel with
  | O => Some silences
  | S fuel' =>
      if decide (i < length startMatches ∧ i < length endMatches) then
        sm ← startMatches !! i;
        s ← sm !! 1;
        em ← endMatches !! i;
        e ← em !! 1;
        let st := strconv_ParseFloat s in
        let en := strconv_ParseFloat e in
        pairLoop fuel' (i + 1) startMatches endMatches
          (silences ++ [mkSegment st en])
      else Some silences
  end.

(** [func detectSilentSegments(cfg Config) []segment] *)
Definition detectSilentSegments (cfg : Config) (w : World)
    : World * option (list segment) :=
  let silenceFilter :=
    Sprintf_silenceFilter (SilenceThreshold cfg) (MinSilenceDur cfg) in
  let '(w, (output, _)) :=
    runFFmpeg ["-i"; InputFile cfg; "-af"; silenceFilter; "-f"; "null"; "-"] w in
  let startMatches :=
    regexp_FindAllStringSubmatch "silence_start: (\d+\.?\d*)" output in
  let endMatches :=
    regexp_FindAllStringSubmatch "silence_end: (\d+\.?\d*)" output in
  (w, pairLoop (length startMatches) 0 startMatches endMatches []).

(** The silence made of the [i]-th start and the [i]-th end. *)
Definition pairOf (sm em : list string) : segment :=
  mkSegment (strconv_ParseFloat (default "" (sm !! 1)))
            (strconv_ParseFloat (default "" (em !! 1))).

Lemma pairLoop_zip startMatches endMatches :
  Forall (λ m, 2 ≤ length m) startMatches →
  Forall (λ m, 2 ≤ length m) endMatches →
  ∀ fuel i silences,
    length startMatches ≤ i + fuel →
    pairLoop fuel i startMatches endMatches silences
    = Some (silences
            ++ zip_with pairOf (drop i startMatches) (drop i endMatches)).
Proof.
  intros Hs He. induction fuel as [|fuel IH]; intros i silences Hfuel; simpl.
  - rewrite (drop_ge startMatches) by lia. by rewrite app_nil_r.
  - destruct (decide _) as [[Hi1 Hi2]|Hout].
    + destruct (lookup_lt_is_Some_2 startMatches i Hi1) as [sm Hsm].
      destruct (lookup_lt_is_Some_2 endMatches i Hi2) as [em Hem].
      rewrite Hsm, Hem. simpl.
      rewrite Forall_forall in Hs, He.
      destruct (lookup_lt_is_Some_2 sm 1) as [s Hs1].
      { apply Hs. by eapply list_elem_of_lookup_2. }
      destruct (lookup_lt_is_Some_2 em 1) as [e He1].
      { apply He. by eapply list_elem_of_lookup_2. }
      rewrite Hs1, He1. simpl.
      rewrite IH by lia.
      rewrite (drop_S _ _ _ Hsm), (drop_S _ _ _ Hem). simpl.
      unfold pairOf at 2. rewrite Hs1, He1. simpl.
      replace (i + 1) with (S i) by lia. by rewrite <- app_assoc.
    + assert (length startMatches ≤ i ∨ length endMatches ≤ i) as [H|H] by lia.
      * rewrite (drop_ge startMatches) by done. by rewrite app_nil_r.
      * rewrite (drop_ge endMatches) by done.
        by rewrite zip_with_nil_r, app_nil_r.
Qed.

(** X15.  Provided every [silence_start] and [silence_end] match found in
    the output of the [ffmpeg] run carries its captured group (as a pattern
    with one group gives), detection does not panic, whether or not the run
    returned an error, and pairs the [i]-th [silence_start] with the [i]-th
    [silence_end] of that output: there are as many silences as the fewer
    of the two kinds of mark, so a [silence_start] left without its end, as
    when the recording ends in silence, is dropped. *)
Theorem X15_silences_are_paired_marks cfg w :
  let silenceFilter :=
    Sprintf_silenceFilter (SilenceThreshold cfg) (MinSilenceDur cfg) in
  let run :=
    exec_Run "ffmpeg"
      ["-i"; InputFile cfg; "-af"; silenceFilter; "-f"; "null"; "-"] w in
  let output := run.2.1 in
  let startMatches :=
    regexp_FindAllStringSubmatch "silence_start: (\d+\.?\d*)" output in
  let endMatches :=
    regexp_FindAllStringSubmatch "silence_end: (\d+\.?\d*)" output in
  Forall (λ m, 2 ≤ length m) startMatches →
  Forall (λ m, 2 ≤ length m) endMatches →
  ∃ silences,
    detectSilentSegments cfg w = (run.1, Some silences)
    ∧ silences = zip_with pairOf startMatches endMatches
    ∧ length silences = length startMatches `min` length endMatches
    ∧ (∀ i sm em s e,
         startMatches !! i = Some sm → sm !! 1 = Some s →
         endMatches !! i = Some em → em !! 1 = Some e →
         silences !! i
         = Some (mkSegment (strconv_ParseFloat s) (strconv_ParseFloat e)))
    ∧ (∀ i, length endMatches ≤ i → silences !! i = None)
    ∧ (length endMatches < length startMatches →
         silences
         = zip_with pairOf (take (length endMatches) startMatches) endMatches).
Proof.
  intros silenceFilter run output startMatches endMatches Hs He.
  exists (zip_with pairOf startMatches endMatches).
  split.
  { unfold detectSilentSegments, runFFmpeg. cbv zeta.
    fold silenceFilter run.
    destruct run as [w' [out err]] eqn:Hrun. simpl in output.
    fold output startMatches endMatches.
    rewrite pairLoop_zip by first [done | lia].
    by rewrite !drop_0. }
  clearbody startMatches endMatches.
  split; [done|].
  split; [by rewrite length_zip_with|].
  split.
  { intros i sm em s e Hsm Hs1 Hem He1.
    rewrite lookup_zip_with, Hsm, Hem. simpl.
    unfold pairOf. by rewrite Hs1, He1. }
  split.
  { intros i Hi. apply lookup_ge_None. rewrite length_zip_with. lia. }
  intros Hlt.
  rewrite <- (take_drop (length endMatches) startMatches) at 1.
  rewrite zip_with_app_l.
  assert (length (take (length endMatches) startMatches) = length endMatches)
    as -> by (rewrite length_take; lia).
  rewrite (take_ge endMatches), (drop_ge endMatches) by lia.
  by rewrite zip_with_nil_r, app_nil_r.
Qed.

End Detect.

(** A run whose output has two [silence_start] marks and one
    [silence_end]: the recording ends in silence. *)
Definition endsInSilence (pattern output : string) : list (list string) :=
  if decide (pattern = "silence_start: (\d+\.?\d*)")
  then [["silence_start: 180"; "180"]; ["silence_start: 400"; "400"]]
  else [["silence_end: 190"; "190"]].

Lemma X15_witness :
  detectSilentSegments (World := unit) (error := unit)
    (λ _ _ w,
       (w, ("silence_start: 180 silence_end: 190 silence_start: 400", None)))
    endsInSilence
    (λ s, if decide (s = "180") then 180%float
          else if decide (s = "190") then 190%float else 400%float)
    (λ _ _, "silencedetect=noise=-12dB:d=2.0")
    defaultConfig tt
  = (tt, Some [mkSegment 180 190]).
Proof.
  destruct (X15_silences_are_paired_marks (error := unit)
              (λ _ _ w,
                 (w, ("silence_start: 180 silence_end: 190 silence_start: 400",
                      None)))
              endsInSilence
              (λ s, if decide (s = "180") then 180%float
                    else if decide (s = "190") then 190%float else 400%float)
              (λ _ _, "silencedetect=noise=-12dB:d=2.0")
              defaultConfig tt)
    as (silences & Hrun & Hzip & _).
  - repeat constructor.
  - repeat constructor.
  - rewrite Hrun, Hzip. reflexivity.
Defined.
